(** * Greedy decoding loop of [generate.py]

    A shallow embedding of [generate_text] and of the interactive loop of
    [main], with the properties stated about them.

    Tensors are nested lists: a token tensor of shape (batch, num_tokens) is
    the list of its rows, a logits tensor of shape (batch, num_tokens,
    vocab_size) the list, per row, of one score vector per position.  Scores
    are kept abstract (a type with a strict comparison and a softmax), so
    what is proved of the loop holds whatever the arithmetic.  Two instances
    are given: the binary32 floats, where the softmax is computed with
    rounding as line 32 computes it, and the real numbers, where it is the
    exact formula; NaN is not ordered in either.

    A batch is the list of its rows, so the shape of a tensor without rows
    is not represented; [main] always works on a batch of one row.

    The model, the tokenizer and the console are the program's collaborators:
    the model is a function that may raise, every forward pass is recorded in
    a log, and the session is a function of the lines that standard input
    holds to the events it causes. *)

From Stdlib Require Import Ascii String.
From Stdlib Require Import List ZArith Lia Bool Arith.
From Stdlib Require Import Reals Lra.
From Stdlib Require Import SpecFloat.
Import ListNotations.
Local Open Scope list_scope.
Local Open Scope nat_scope.

Set Implicit Arguments.

(** ** Exceptions and results *)

Inductive exn : Type :=
| ModelError            (* raised inside the forward pass *)
| IndexError            (* logits[:, -1, :] on an empty position axis *)
| EmptyReduction        (* argmax over an axis of size 0 *)
| SizeMismatch          (* torch.cat with different batch sizes *)
| NotASequence.         (* decode of something that is not one row *)

Inductive result (A : Type) : Type :=
| Ok (a : A)
| Raise (e : exn).

Arguments Ok {A} a.
Arguments Raise {A} e.

Definition result_bind {A B} (r : result A) (k : A -> result B) : result B :=
  match r with
  | Ok a => k a
  | Raise e => Raise e
  end.

(** [traverse f l] applies [f] along an axis and raises at the first
    element on which [f] raises. *)
Fixpoint traverse {A B} (f : A -> result B) (l : list A) : result (list B) :=
  match l with
  | [] => Ok []
  | a :: l' =>
      result_bind (f a) (fun b =>
      result_bind (traverse f l') (fun bs => Ok (b :: bs)))
  end.

(** ** Tensors *)

Definition token := Z.
Definition tensor2 := list (list token).
Definition tensor3 (T : Type) := list (list (list T)).

Definition shape2 (B n : nat) (t : tensor2) : Prop :=
  length t = B /\ Forall (fun row => length row = n) t.

Definition shape3 {T} (B s V : nat) (l : tensor3 T) : Prop :=
  length l = B /\
  Forall (fun m => length m = s /\ Forall (fun v => length v = V) m) l.

(** Python's [l[start:]]: a negative [start] counts from the end, and both
    ends are clamped to the sequence. *)
Definition slice_from {A} (start : Z) (l : list A) : list A :=
  let len := Z.of_nat (length l) in
  let lo := if (start <? 0)%Z then Z.max (len + start) 0 else Z.min start len in
  skipn (Z.to_nat lo) l.

(** [token_ids[:, -context_length:]] *)
Definition truncate (context_length : Z) (token_ids : tensor2) : tensor2 :=
  map (slice_from (- context_length)) token_ids.

Definition last_error {A} (l : list A) : result A :=
  match rev l with
  | [] => Raise IndexError
  | a :: _ => Ok a
  end.

(** [logits[:, -1, :]] *)
Definition select_last {T} (logits : tensor3 T) : result (list (list T)) :=
  traverse (@last_error (list T)) logits.

(** [torch.cat((token_ids, next_token_id), dim=-1)] where [next_token_id]
    has shape (batch, 1). *)
Definition cat (token_ids : tensor2) (next_token_id : list token)
  : result tensor2 :=
  if (length token_ids =? length next_token_id)%nat
  then Ok (map (fun p => fst p ++ [snd p]) (combine token_ids next_token_id))
  else Raise SizeMismatch.

(** ** Scores, arg-max and softmax *)

Class Score (T : Type) : Type := { score_lt : T -> T -> bool }.

Class ScoreOrder (T : Type) `{Score T} : Prop := {
  score_lt_irrefl : forall a, score_lt a a = false;
  score_lt_trans : forall a b c,
      score_lt a b = true -> score_lt b c = true -> score_lt a c = true;
  score_lt_cotrans : forall a b c,
      score_lt a b = true -> score_lt a c = true \/ score_lt c b = true
}.

Arguments ScoreOrder T {_}.

Class Softmax (T : Type) : Type := { softmax : list T -> list T }.

(** [torch.softmax] keeps the shape of its argument. *)
Class SoftmaxShape (T : Type) `{Softmax T} : Prop := {
  softmax_length : forall l : list T, length (softmax l) = length l
}.

Arguments SoftmaxShape T {_}.

Section Argmax.
Context {T : Type} `{Score T}.

(** One left-to-right scan that keeps the first strictly greatest score:
    [best] is the score at index [best_i], [i] the index of the head of
    the rest. *)
Fixpoint argmax_scan (best_i : nat) (best : T) (i : nat) (l : list T) : nat :=
  match l with
  | [] => best_i
  | x :: l' =>
      if score_lt best x
      then argmax_scan i x (S i) l'
      else argmax_scan best_i best (S i) l'
  end.

(** [torch.argmax] along one axis: the index of the first maximal value;
    an empty axis is an error. *)
Definition argmax (l : list T) : result nat :=
  match l with
  | [] => Raise EmptyReduction
  | x :: l' => Ok (argmax_scan 0 x 1 l')
  end.

(** [torch.argmax(probabilities, dim=-1, keepdim=True)] *)
Definition argmax_rows (p : list (list T)) : result (list token) :=
  traverse (fun row => result_bind (argmax row) (fun i => Ok (Z.of_nat i))) p.
End Argmax.

(** ** The decoding loop *)

(** A computation that calls the model: the windows passed to the model so
    far, in order, and the value or the exception it ends with. *)
Definition M (A : Type) : Type := (list tensor2 * result A)%type.

Definition ret {A} (a : A) : M A := ([], Ok a).

Definition bind {A B} (m : M A) (k : A -> M B) : M B :=
  match m with
  | (log, Ok a) => let (log', r) := k a in (log ++ log', r)
  | (log, Raise e) => (log, Raise e)
  end.

Definition lift {A} (r : result A) : M A := ([], r).

Definition forward_inputs {A} (m : M A) : list tensor2 := fst m.
Definition returned {A} (m : M A) : result A := snd m.

Notation "x <- m ;; k" := (bind m (fun x => k))
  (at level 61, m at next level, right associativity).

Section Decoding.
Context {T : Type} `{Score T} `{Softmax T}.

Definition language_model := tensor2 -> result (tensor3 T).

(** [model(real_token_ids)], recorded. *)
Definition forward (model : language_model) (x : tensor2) : M (tensor3 T) :=
  ([x], model x).

(** The body of the loop, lines 21 to 39. *)
Definition step (model : language_model) (context_length : Z)
           (token_ids : tensor2) : M tensor2 :=
  let real_token_ids := truncate context_length token_ids in
  logits <- forward model real_token_ids ;;
  logits <- lift (select_last logits) ;;
  let probabilities := map softmax logits in
  next_token_id <- lift (argmax_rows probabilities) ;;
  lift (cat token_ids next_token_id).

(** [for _ in range(n): token_ids = body(token_ids)] *)
Fixpoint for_range (n : nat) (body : tensor2 -> M tensor2)
         (token_ids : tensor2) : M tensor2 :=
  match n with
  | O => ret token_ids
  | S n' => token_ids' <- body token_ids ;; for_range n' body token_ids'
  end.

(** [range] of a negative number is empty. *)
Definition generate_text (model : language_model) (token_ids : tensor2)
           (max_new_tokens context_length : Z) : M tensor2 :=
  for_range (Z.to_nat max_new_tokens) (step model context_length) token_ids.
End Decoding.

(** ** Scores as real numbers *)

#[export] Instance real_score : Score R :=
  { score_lt x y := if Rlt_dec x y then true else false }.

(** The softmax of one score vector in exact arithmetic:
    [exp x_i / (exp x_1 + ... + exp x_n)]. *)
Definition softmax_R (logits : list R) : list R :=
  let denominator := fold_right Rplus 0%R (map exp logits) in
  map (fun x => (exp x / denominator)%R) logits.

#[export] Instance real_softmax : Softmax R := { softmax := softmax_R }.

(** Decoding without the normalization step: the arg-max is taken over the
    raw scores. *)
Definition raw_scores (T : Type) : Softmax T := {| softmax := fun l => l |}.

(** ** Scores as binary32 floats *)

(** The scores of the program are float32 numbers: IEEE 754 binary32, with
    the operations of the standard library's specification of floats at
    precision 24 and maximal exponent 128 (round to nearest, ties to
    even). *)
Definition float32 : Type := spec_float.
Definition prec32 : Z := 24.
Definition emax32 : Z := 128.

Definition add32 : float32 -> float32 -> float32 := SFadd prec32 emax32.
Definition sub32 : float32 -> float32 -> float32 := SFsub prec32 emax32.
Definition div32 : float32 -> float32 -> float32 := SFdiv prec32 emax32.
Definition one32 : float32 := SFone prec32 emax32.
Definition zero32 : float32 := S754_zero false.
Definition neg_infinity32 : float32 := S754_infinity true.


#[export] Instance float_score : Score float32 := { score_lt := SFltb }.

(** The real number a finite float stands for. *)
Definition SF2R (x : float32) : R :=
  match x with
  | S754_finite s m e =>
      ((if s then -1 else 1) * IZR (Zpos m) * powerRZ 2 e)%R
  | _ => 0%R
  end.

Definition floor (r : R) : Z := Int_part r.

(** The float32 nearest to the real [r], ties to even.  With
    [2^e <= |r| < 2^(e+1)], [|r|] is scaled into [[2^30, 2^31)], where two
    floats and the midpoint between them are integers; the integer part of
    the scaled number, doubled, with one more bit that says whether anything
    was cut off, is then rounded as an integer mantissa is. *)
Definition round32 (r : R) : float32 :=
  if Req_dec_T r 0 then zero32
  else
    let k := (30 - floor (ln (Rabs r) / ln 2))%Z in
    let scaled := (Rabs r * powerRZ 2 k)%R in
    let sticky :=
      if Req_dec_T (IZR (floor scaled)) scaled then 0%Z else 1%Z in
    binary_round prec32 emax32
                 (if Rlt_dec r 0 then true else false)
                 (Z.to_pos (2 * floor scaled + sticky)) (- k - 1).

(** The exponential on float32: the float nearest to the exponential of the
    number, with the values of IEEE 754 at zero, at the infinities and at
    NaN.  The library does not document how it rounds; this is the rounding
    that IEEE 754 recommends. *)
Definition exp32 (x : float32) : float32 :=
  match x with
  | S754_nan => S754_nan
  | S754_infinity false => S754_infinity false
  | S754_infinity true => zero32
  | S754_zero _ => one32
  | S754_finite _ _ _ => round32 (exp (SF2R x))
  end.

Definition max32 (a b : float32) : float32 := if SFltb a b then b else a.

(** [torch.softmax(logits, dim=-1)] on one vector of float32 numbers: the
    greatest score is subtracted from every score, the exponentials are
    summed from left to right, and each is divided by the sum, every
    operation rounded to float32. *)
Definition softmax32 (logits : list float32) : list float32 :=
  match logits with
  | [] => []
  | x :: rest =>
      let greatest := fold_left max32 rest x in
      let exps := map (fun y => exp32 (sub32 y greatest)) logits in
      let total := fold_left add32 exps zero32 in
      map (fun e => div32 e total) exps
  end.

#[export] Instance float_softmax : Softmax float32 :=
  { softmax := softmax32 }.

(** Integer scores, for running the scan on examples. *)
#[export] Instance int_score : Score Z := { score_lt := Z.ltb }.

(** ** The interactive session *)

Definition newline : string := String (ascii_of_nat 10) EmptyString.
Definition banner : string := "开始对话（输入'exit'退出）".
Definition user_prompt : string := "用户: ".
Definition model_prefix : string := "模型: ".

(** [str.lower] on the characters that matter for the comparison with
    ['exit']: the letters A to Z.  No character outside ASCII lowercases to
    a letter of ['exit'], so leaving the others unchanged does not change
    the outcome of the comparison. *)
Definition lower_char (a : ascii) : ascii :=
  let n := nat_of_ascii a in
  if (65 <=? n) && (n <=? 90) then ascii_of_nat (n + 32) else a.

Fixpoint lower (s : string) : string :=
  match s with
  | EmptyString => EmptyString
  | String a s' => String (lower_char a) (lower s')
  end.

Record Tokenizer : Type := {
  encode : string -> list token;
  decode : list token -> string
}.

Inductive event : Type :=
| EvPrint (text : string)                       (* print(text) *)
| EvInput (prompt : string) (line : option string)
                                               (* input(prompt); None at end of input *)
| EvEncode (text : string)                      (* tokenizer.encode(text) *)
| EvForward (window : tensor2)                  (* model(window) *)
| EvDecode (ids : list token).                  (* tokenizer.decode(ids) *)

Inductive outcome : Type :=
| Exited                 (* break: main returns *)
| EndOfInput             (* input() raises EOFError *)
| Crashed (e : exn).     (* an exception of the turn propagates *)

(** [output_ids.squeeze(0).tolist()] is a list of token ids when the batch
    has one row; otherwise [decode] is handed a nested list. *)
Definition squeeze0 (output_ids : tensor2) : result (list token) :=
  match output_ids with
  | [row] => Ok row
  | _ => Raise NotASequence
  end.

Section Session.
Context {T : Type} `{Score T} `{Softmax T}.
Variable tokenizer : Tokenizer.
Variable model : @language_model T.
Variable context_length : Z.   (* cfg["context_length"] *)

(** Lines 73 to 87: one turn on a line that is not the sentinel. *)
Definition turn (user_input : string) : list event * result unit :=
  let token_ids := [encode tokenizer user_input] in
  let run := generate_text model token_ids 6 context_length in
  let events := EvEncode user_input :: map EvForward (forward_inputs run) in
  match result_bind (returned run) squeeze0 with
  | Raise e => (events, Raise e)
  | Ok ids =>
      let output_text := decode tokenizer ids in
      (events ++ [EvDecode ids;
                  EvPrint (model_prefix ++ output_text ++ newline)%string],
       Ok tt)
  end.

(** The [while True] loop over the lines standard input holds. *)
Fixpoint session (stdin : list string) : list event * outcome :=
  match stdin with
  | [] => ([EvInput user_prompt None], EndOfInput)
  | user_input :: rest =>
      let read := EvInput user_prompt (Some user_input) in
      if String.eqb (lower user_input) "exit"
      then ([read], Exited)
      else
        match turn user_input with
        | (events, Raise e) => (read :: events, Crashed e)
        | (events, Ok _) =>
            let (events', o) := session rest in
            (read :: events ++ events', o)
        end
  end.

Definition main (stdin : list string) : list event * outcome :=
  let (events, o) := session stdin in (EvPrint banner :: events, o).
End Session.

(** ** Vocabulary of the statements *)

(** The suffix of length [k] of a sequence. *)
Definition suffix {A} (k : nat) (l : list A) : list A :=
  skipn (length l - k) l.

(** [extends_by k seed out]: every row of [out] is the row of [seed] at the
    same place followed by [k] more tokens. *)
Definition extends_by (k : nat) (seed out : tensor2) : Prop :=
  Forall2 (fun s row => exists gen, row = s ++ gen /\ length gen = k) seed out.

(** Row-wise concatenation of a token tensor with the tokens generated for
    each row. *)
Definition append_columns (t generated : tensor2) : tensor2 :=
  map (fun p => fst p ++ snd p) (combine t generated).

(** What [cat] builds, and its counterpart that puts one more token in
    front of the tokens generated for each row. *)
Definition snoc_columns (t : tensor2) (next : list token) : tensor2 :=
  map (fun p => fst p ++ [snd p]) (combine t next).

Definition cons_columns (next : list token) (generated : tensor2) : tensor2 :=
  map (fun p => fst p :: snd p) (combine next generated).

(** Two token tensors whose rows, pairwise, have at least [k] tokens and the
    same last [k] tokens. *)
Definition agree_on_last (k : nat) (t1 t2 : tensor2) : Prop :=
  Forall2 (fun s1 s2 =>
             k <= length s1 /\ k <= length s2 /\ suffix k s1 = suffix k s2)
          t1 t2.

(** Two calls end alike: with the same exception, or with the same [n]
    generated tokens appended to the rows of their seeds. *)
Definition same_generation (n : nat) (t1 t2 : tensor2)
           (r1 r2 : result tensor2) : Prop :=
  match r1, r2 with
  | Ok out1, Ok out2 =>
      exists generated,
        length generated = length t1 /\
        Forall (fun g => length g = n) generated /\
        out1 = append_columns t1 generated /\
        out2 = append_columns t2 generated
  | Raise e1, Raise e2 => e1 = e2
  | _, _ => False
  end.

(** [i] is an index of a greatest score of [l], and the lowest such. *)
Definition is_max_index {T} `{Score T} (l : list T) (i : nat) : Prop :=
  exists v, nth_error l i = Some v /\
            forall j w, nth_error l j = Some w -> score_lt v w = false.

Definition is_first_max_index {T} `{Score T} (l : list T) (i : nat) : Prop :=
  is_max_index l i /\ forall j, is_max_index l j -> i <= j.

Section Interface.
Context {T : Type} `{Score T} `{Softmax T}.

(** The model interface: on a batch of [B] windows of [s] tokens, with
    [s] between 1 and the context length, the model returns one score
    vector of size [V] per position. *)
Definition conforms (V : nat) (context_length : Z)
           (model : @language_model T) : Prop :=
  forall B s x,
    shape2 B s x -> 1 <= s -> (Z.of_nat s <= context_length)%Z ->
    exists logits, model x = Ok logits /\ shape3 B s V logits.

(** The probabilities computed in one iteration on [token_ids]. *)
Definition probabilities_of (model : @language_model T) (context_length : Z)
           (token_ids : tensor2) : result (list (list T)) :=
  result_bind (model (truncate context_length token_ids)) (fun logits =>
  result_bind (select_last logits) (fun last => Ok (map softmax last))).

(** What one iteration ends with. *)
Definition step_result (model : @language_model T) (context_length : Z)
           (token_ids : tensor2) : result tensor2 :=
  result_bind (probabilities_of model context_length token_ids) (fun p =>
  result_bind (argmax_rows p) (cat token_ids)).
End Interface.

(** ** Models for examples *)

(** A model that scores every position of every row with the vector [v]. *)
Definition uniform_model {T} (v : list T) : @language_model T :=
  fun x => Ok (map (map (fun _ => v)) x).

(** The same, for a network with [limit] positions: a longer window makes
    the forward pass raise. *)
Definition bounded_model {T} (limit : nat) (v : list T) : @language_model T :=
  fun x =>
    if existsb (fun row => limit <? length row) x
    then Raise ModelError
    else uniform_model v x.

(** A model over integer scores that favours, at every position, the
    successor of the token there (modulo the vocabulary size [V]). *)
Definition one_hot (V i : nat) : list Z :=
  map (fun j => if j =? i then 1%Z else 0%Z) (seq 0 V).

Definition successor_model (V : nat) : @language_model Z :=
  fun x =>
    Ok (map (map (fun tok =>
                    one_hot V (Z.to_nat ((tok + 1) mod Z.of_nat V)))) x).

(** A model that scores the last position of every row with [v] and the
    positions before it with [w]. *)
Definition last_position_model {T} (v w : list T) : @language_model T :=
  fun x =>
    Ok (map (fun row =>
               map (fun _ => w) (removelast row)
               ++ match row with [] => [] | _ :: _ => [v] end) x).

(** A tokenizer for examples: one token per byte. *)
Definition byte_tokenizer : Tokenizer := {|
  encode := fun text =>
    map (fun a => Z.of_nat (nat_of_ascii a)) (list_ascii_of_string text);
  decode := fun ids =>
    string_of_list_ascii (map (fun z => ascii_of_nat (Z.to_nat z)) ids)
|}.

(** ** Vocabulary of the statements about the session *)

(** The sixteen ways to write the sentinel. *)
Definition exit_spellings : list string :=
  ["exit"; "exiT"; "exIt"; "exIT"; "eXit"; "eXiT"; "eXIt"; "eXIT";
   "Exit"; "ExiT"; "ExIt"; "ExIT"; "EXit"; "EXiT"; "EXIt"; "EXIT"]%string.

Section Replies.
Context {T : Type} `{Score T} `{Softmax T}.

(** The turn on [user_input] goes all the way: the text is encoded, the
    decoding loop is run on it with 6 new tokens and the configured
    context length, and the seed followed by the 6 generated tokens is
    decoded and printed. *)
Definition replies (tokenizer : Tokenizer) (model : @language_model T)
           (context_length : Z) (user_input : string) : Prop :=
  exists generated,
    length generated = 6 /\
    let seed := encode tokenizer user_input in
    let run := generate_text model [seed] 6 context_length in
    returned run = Ok [seed ++ generated] /\
    length (forward_inputs run) = 6 /\
    turn tokenizer model context_length user_input =
    (EvEncode user_input :: map EvForward (forward_inputs run) ++
       [EvDecode (seed ++ generated);
        EvPrint (model_prefix ++ decode tokenizer (seed ++ generated)
                   ++ newline)%string],
     Ok tt).
End Replies.

Section Answered.
Context {T : Type} `{Score T} `{Softmax T}.

(** A line that is not the sentinel and whose turn ends without an
    exception. *)
Definition answered (tokenizer : Tokenizer) (model : @language_model T)
           (context_length : Z) (line : string) : Prop :=
  ~ In line exit_spellings /\
  snd (turn tokenizer model context_length line) = Ok tt.

(** The events of the loop iteration on a line that is not the sentinel:
    the read and the events of the turn. *)
Definition iteration_events (tokenizer : Tokenizer)
           (model : @language_model T) (context_length : Z)
           (line : string) : list event :=
  EvInput user_prompt (Some line)
    :: fst (turn tokenizer model context_length line).
End Answered.

(** A model scores the rows of a batch independently when its answer on two
    batches put together is its answers put together. *)
Definition batch_compatible {T} (model : @language_model T) : Prop :=
  forall x1 x2 l1 l2,
    model x1 = Ok l1 -> model x2 = Ok l2 -> model (x1 ++ x2) = Ok (l1 ++ l2).

(** ** The configuration *)

(** What [json.load] gives for a field, as far as this program can tell
    values apart.  Line 21 negates [context_length] and slices with it: an
    integer is used as it is, a boolean as the integer it is ([-True] is
    [-1], [-False] is [0]), and anything else (null, a float, a string, an
    array, an object) makes it raise [TypeError]. *)
Inductive json : Type :=
| JInt (z : Z)
| JBool (b : bool)
| JOther.

(** The dictionary built from the JSON object of the configuration file. *)
Definition config := list (string * json).

Fixpoint lookup (key : string) (cfg : config) : option json :=
  match cfg with
  | [] => None
  | (k, v) :: cfg' => if String.eqb k key then Some v else lookup key cfg'
  end.

Definition as_index (v : json) : option Z :=
  match v with
  | JInt z => Some z
  | JBool true => Some 1%Z
  | JBool false => Some 0%Z
  | JOther => None
  end.

(** How the loop of [main] ends when the configuration is looked up at
    every turn: as a session does, or with the [KeyError] of
    [cfg["context_length"]] (line 80), or with the [TypeError] of line 21. *)
Inductive ending : Type :=
| Ended (o : outcome)
| KeyError (key : string)
| TypeError.

Section ConfiguredSession.
Context {T : Type} `{Score T} `{Softmax T}.
Variable tokenizer : Tokenizer.
Variable model : @language_model T.
Variable cfg : config.

(** The loop of [main] with [cfg] in place of the context length: the line
    is encoded (line 73) before [cfg["context_length"]] is evaluated (line
    80), and the value is first used in the first iteration of
    [generate_text], before the forward pass.  The model is the one that
    line 59 has built from [cfg]; what its construction does with [cfg] is
    not part of the loop. *)
Fixpoint configured_session (stdin : list string) : list event * ending :=
  match stdin with
  | [] => ([EvInput user_prompt None], Ended EndOfInput)
  | user_input :: rest =>
      let read := EvInput user_prompt (Some user_input) in
      if String.eqb (lower user_input) "exit"
      then ([read], Ended Exited)
      else
        match lookup "context_length" cfg with
        | None => ([read; EvEncode user_input], KeyError "context_length")
        | Some v =>
            match as_index v with
            | None => ([read; EvEncode user_input], TypeError)
            | Some context_length =>
                match turn tokenizer model context_length user_input with
                | (events, Raise e) => (read :: events, Ended (Crashed e))
                | (events, Ok _) =>
                    let (events', o) := configured_session rest in
                    (read :: events ++ events', o)
                end
            end
        end
  end.
End ConfiguredSession.

(** The softmax keeps the order of a score vector when it keeps its length
    and, for any two positions, the probabilities compare as the scores
    do. *)
Definition order_kept {T} `{Score T} `{Softmax T} (logits : list T) : Prop :=
  length (softmax logits) = length logits /\
  forall pa a pb b,
    In (pa, a) (combine (softmax logits) logits) ->
    In (pb, b) (combine (softmax logits) logits) ->
    score_lt pa pb = score_lt a b.

(** * Properties *)

(** ** Slicing *)

Lemma slice_from_zero {A} (l : list A) : slice_from 0 l = l.
Proof.
  unfold slice_from. simpl.
  replace (Z.to_nat (Z.min 0 (Z.of_nat (length l)))) with 0 by lia.
  reflexivity.
Qed.

Lemma slice_from_window {A} (c : Z) (l : list A) :
  (0 < c)%Z ->
  slice_from (- c) l = suffix (Nat.min (length l) (Z.to_nat c)) l.
Proof.
  intros Hc. unfold slice_from, suffix.
  destruct (Z.ltb_spec (- c) 0) as [_ | Hge]; [| lia].
  f_equal. lia.
Qed.

Lemma suffix_length {A} (k : nat) (l : list A) :
  k <= length l -> length (suffix k l) = k.
Proof. intros Hk. unfold suffix. rewrite length_skipn. lia. Qed.

Lemma suffix_app {A} (k : nat) (l : list A) :
  exists dropped, l = dropped ++ suffix k l.
Proof.
  exists (firstn (length l - k) l). unfold suffix.
  symmetry. apply firstn_skipn.
Qed.

Lemma truncate_zero (t : tensor2) : truncate 0 t = t.
Proof.
  unfold truncate. simpl. induction t as [| row t IH]; simpl.
  - reflexivity.
  - rewrite slice_from_zero. f_equal. exact IH.
Qed.

Lemma truncate_window (c : Z) (t : tensor2) :
  (0 < c)%Z ->
  truncate c t =
  map (fun row => suffix (Nat.min (length row) (Z.to_nat c)) row) t.
Proof.
  intros Hc. unfold truncate. apply map_ext.
  intros row. apply slice_from_window. exact Hc.
Qed.

Lemma truncate_shape (c : Z) (B n : nat) (t : tensor2) :
  (0 < c)%Z -> shape2 B n t ->
  shape2 B (Nat.min n (Z.to_nat c)) (truncate c t).
Proof.
  intros Hc [HB Hrows]. split.
  - unfold truncate. rewrite length_map. exact HB.
  - rewrite truncate_window by exact Hc.
    apply Forall_map. eapply Forall_impl; [| exact Hrows].
    intros row Hrow. cbv beta. rewrite suffix_length by lia.
    rewrite Hrow. reflexivity.
Qed.

(** ** Results and traversals *)

Lemma traverse_length {A B} (f : A -> result B) (l : list A) (bs : list B) :
  traverse f l = Ok bs -> length bs = length l.
Proof.
  revert bs. induction l as [| a l IH]; simpl; intros bs Hbs.
  - injection Hbs as <-. reflexivity.
  - destruct (f a) as [b | e]; simpl in Hbs; [| discriminate].
    destruct (traverse f l) as [bs' | e]; simpl in Hbs; [| discriminate].
    injection Hbs as <-. simpl. f_equal. apply IH. reflexivity.
Qed.

Lemma traverse_Forall2 {A B} (f : A -> result B) (l : list A) (bs : list B) :
  traverse f l = Ok bs -> Forall2 (fun a b => f a = Ok b) l bs.
Proof.
  revert bs. induction l as [| a l IH]; simpl; intros bs Hbs.
  - injection Hbs as <-. constructor.
  - destruct (f a) as [b | e] eqn:Hfa; simpl in Hbs; [| discriminate].
    destruct (traverse f l) as [bs' | e]; simpl in Hbs; [| discriminate].
    injection Hbs as <-. constructor; [exact Hfa | apply IH; reflexivity].
Qed.

Lemma traverse_total {A B} (f : A -> result B) (l : list A) :
  Forall (fun a => exists b, f a = Ok b) l -> exists bs, traverse f l = Ok bs.
Proof.
  induction 1 as [| a l [b Hb] _ [bs Hbs]]; simpl.
  - exists []. reflexivity.
  - exists (b :: bs). rewrite Hb. simpl. rewrite Hbs. reflexivity.
Qed.

Lemma last_error_total {A} (l : list A) :
  1 <= length l -> exists a, last_error l = Ok a /\ In a l.
Proof.
  intros Hlen. unfold last_error.
  destruct (rev l) as [| a r] eqn:Hrev.
  - apply (f_equal (@length A)) in Hrev. rewrite length_rev in Hrev.
    simpl in Hrev. lia.
  - exists a. split; [reflexivity |].
    apply in_rev. rewrite Hrev. left. reflexivity.
Qed.

Lemma select_last_total {T} (B s V : nat) (logits : tensor3 T) :
  shape3 B s V logits -> 1 <= s ->
  exists last, select_last logits = Ok last /\
               length last = B /\ Forall (fun v => length v = V) last.
Proof.
  intros [HB Hm] Hs. unfold select_last.
  destruct (traverse_total (@last_error (list T)) (l := logits))
    as [last Hlast].
  { eapply Forall_impl; [| exact Hm]. intros m [Hlen _].
    destruct (@last_error_total _ m) as [a [Ha _]]; [lia |].
    exists a. exact Ha. }
  exists last. split; [exact Hlast |]. split.
  - rewrite (traverse_length _ _ Hlast). exact HB.
  - apply traverse_Forall2 in Hlast.
    clear HB. induction Hlast as [| m v logits' last' Hv _ IH].
    + constructor.
    + inversion Hm as [| ? ? [Hlen HV] Hm']; subst.
      constructor; [| apply IH; exact Hm'].
      destruct (@last_error_total _ m) as [a [Ha Hin]]; [lia |].
      rewrite Ha in Hv. injection Hv as <-.
      rewrite Forall_forall in HV. apply HV. exact Hin.
Qed.

Lemma cat_inv (t : tensor2) (next : list token) (t' : tensor2) :
  cat t next = Ok t' ->
  length t = length next /\
  t' = map (fun p => fst p ++ [snd p]) (combine t next).
Proof.
  unfold cat. destruct (Nat.eqb_spec (length t) (length next)) as [E | _].
  - intros Ht'. injection Ht' as <-. split; [exact E | reflexivity].
  - discriminate.
Qed.

Lemma cat_total (t : tensor2) (next : list token) :
  length t = length next -> exists t', cat t next = Ok t'.
Proof.
  intros E. unfold cat. rewrite E, Nat.eqb_refl. eexists. reflexivity.
Qed.

Lemma cat_extends (t : tensor2) (next : list token) (t' : tensor2) :
  cat t next = Ok t' ->
  Forall2 (fun s row => exists x, row = s ++ [x]) t t'.
Proof.
  intros Hcat. apply cat_inv in Hcat as [Hlen ->].
  revert next Hlen. induction t as [| row t IH]; intros [| x next] Hlen;
    simpl in *; try discriminate; constructor.
  - exists x. reflexivity.
  - apply IH. lia.
Qed.

Lemma extends_by_zero (t : tensor2) : extends_by 0 t t.
Proof.
  unfold extends_by. induction t as [| row t IH]; constructor.
  - exists []. split; [symmetry; apply app_nil_r | reflexivity].
  - exact IH.
Qed.

Lemma extends_by_step (k : nat) (t t' out : tensor2) :
  Forall2 (fun s row => exists x, row = s ++ [x]) t t' ->
  extends_by k t' out -> extends_by (S k) t out.
Proof.
  unfold extends_by. intros H1. revert out.
  induction H1 as [| s row t t' [x ->] _ IH]; intros out H2.
  - inversion H2. constructor.
  - inversion H2 as [| ? row' ? out' [gen [Hrow' Hgen]] H2']. clear H2.
    constructor; [| apply IH; exact H2'].
    exists (x :: gen). split.
    + rewrite Hrow', <- app_assoc. reflexivity.
    + simpl. rewrite Hgen. reflexivity.
Qed.

Lemma extends_by_shape (k B n : nat) (t out : tensor2) :
  shape2 B n t -> extends_by k t out -> shape2 B (n + k) out.
Proof.
  intros [HB Hrows] Hext. split.
  - rewrite <- (Forall2_length Hext). exact HB.
  - clear HB. induction Hext as [| s row t out [gen [Hrow Hgen]] _ IH].
    + constructor.
    + inversion Hrows as [| ? ? Hs Hrows']. clear Hrows.
      constructor; [| apply IH; exact Hrows'].
      rewrite Hrow, length_app. lia.
Qed.

(** ** The scan *)

Section ScanFacts.
Context {T : Type} `{Score T}.

Lemma argmax_scan_bound (l : list T) (best_i i : nat) (best : T) :
  best_i < i -> argmax_scan best_i best i l < i + length l.
Proof.
  revert best_i best i. induction l as [| x l IH]; simpl; intros bi b i Hlt.
  - lia.
  - destruct (score_lt b x).
    + specialize (IH i x (S i)). lia.
    + specialize (IH bi b (S i)). lia.
Qed.

Lemma argmax_total (l : list T) :
  1 <= length l -> exists i, argmax l = Ok i /\ i < length l.
Proof.
  destruct l as [| x l]; simpl; intros Hlen; [lia |].
  eexists. split; [reflexivity |].
  pose proof (argmax_scan_bound l x (best_i := 0) (i := 1)). lia.
Qed.

Lemma argmax_rows_total (V : nat) (p : list (list T)) :
  1 <= V -> Forall (fun v => length v = V) p ->
  exists next, argmax_rows p = Ok next /\ length next = length p.
Proof.
  intros HV Hp. unfold argmax_rows.
  match goal with |- context [traverse ?f p] =>
    destruct (traverse_total f (l := p)) as [next Hnext] end.
  - eapply Forall_impl; [| exact Hp]. intros v Hv. cbv beta in *.
    destruct (argmax_total v) as [i [Hi _]]; [lia |].
    exists (Z.of_nat i). rewrite Hi. reflexivity.
  - exists next. split; [exact Hnext |].
    apply (traverse_length _ _ Hnext).
Qed.
End ScanFacts.

(** ** One iteration and the loop *)

Section LoopFacts.
Context {T : Type} `{Score T} `{Softmax T}.
Variable model : @language_model T.
Variable c : Z.

Lemma step_eq (t : tensor2) :
  step model c t = ([truncate c t], step_result model c t).
Proof.
  unfold step, step_result, probabilities_of, forward, lift, bind.
  destruct (model (truncate c t)) as [logits | e]; simpl; [| reflexivity].
  destruct (select_last logits) as [last | e]; simpl; [| reflexivity].
  destruct (argmax_rows (map softmax last)) as [next | e]; simpl;
    reflexivity.
Qed.

Lemma for_range_succ (n : nat) (t : tensor2) :
  for_range (S n) (step model c) t =
  match step_result model c t with
  | Ok t' =>
      (truncate c t :: forward_inputs (for_range n (step model c) t'),
       returned (for_range n (step model c) t'))
  | Raise e => ([truncate c t], Raise e)
  end.
Proof.
  simpl. rewrite step_eq. unfold bind.
  destruct (step_result model c t) as [t' | e]; [| reflexivity].
  destruct (for_range n (step model c) t') as [log r]. reflexivity.
Qed.

Lemma step_extends (t t' : tensor2) :
  step_result model c t = Ok t' ->
  Forall2 (fun s row => exists x, row = s ++ [x]) t t'.
Proof.
  unfold step_result. intros Hstep.
  destruct (probabilities_of model c t) as [p | e]; simpl in Hstep;
    [| discriminate].
  destruct (argmax_rows p) as [next | e]; simpl in Hstep; [| discriminate].
  eapply cat_extends. exact Hstep.
Qed.

(** Whatever the model, a run that returns has appended [n] tokens to
    every row. *)
Lemma for_range_extends (n : nat) (t out : tensor2) :
  returned (for_range n (step model c) t) = Ok out -> extends_by n t out.
Proof.
  revert t. induction n as [| n IH]; intros t Hout.
  - simpl in Hout. injection Hout as <-. apply extends_by_zero.
  - rewrite for_range_succ in Hout.
    destruct (step_result model c t) as [t' | e] eqn:Hstep;
      [| discriminate].
    eapply extends_by_step; [apply step_extends; exact Hstep |].
    apply IH. exact Hout.
Qed.

Context `{!SoftmaxShape T}.

Lemma step_total (V B n : nat) (t : tensor2) :
  1 <= V -> conforms V c model -> (0 < c)%Z ->
  shape2 B n t -> 1 <= n ->
  exists t', step_result model c t = Ok t'.
Proof.
  intros HV Hmodel Hc Ht Hn.
  pose proof (truncate_shape Hc Ht) as Hwin.
  destruct (Hmodel _ _ _ Hwin) as [logits [Hlogits Hshape]]; [lia | lia |].
  destruct (select_last_total Hshape) as [last [Hlast [HB Hvecs]]]; [lia |].
  destruct (@argmax_rows_total T _ V (map softmax last))
    as [next [Hnext Hlen]]; [exact HV | |].
  { apply Forall_map. eapply Forall_impl; [| exact Hvecs].
    intros v Hv. cbv beta. rewrite softmax_length. exact Hv. }
  destruct (@cat_total t next) as [t' Ht'].
  { rewrite Hlen, length_map, HB. apply Ht. }
  exists t'. unfold step_result, probabilities_of.
  rewrite Hlogits. simpl. rewrite Hlast. simpl. rewrite Hnext. simpl.
  exact Ht'.
Qed.

Lemma for_range_total (V B : nat) (k n : nat) (t : tensor2) :
  1 <= V -> conforms V c model -> (0 < c)%Z ->
  shape2 B n t -> 1 <= n ->
  exists out, returned (for_range k (step model c) t) = Ok out.
Proof.
  intros HV Hmodel Hc. revert n t.
  induction k as [| k IH]; intros n t Ht Hn.
  - exists t. reflexivity.
  - destruct (step_total HV Hmodel Hc Ht Hn) as [t' Hstep].
    rewrite for_range_succ, Hstep. simpl.
    apply (IH (n + 1)); [| lia].
    apply extends_by_shape with (t := t); [exact Ht |].
    eapply extends_by_step; [apply step_extends; exact Hstep |].
    apply extends_by_zero.
Qed.
End LoopFacts.

(** ** What the model is fed *)

Section Windows.
Context {T : Type} `{Score T} `{Softmax T}.
Variable model : @language_model T.
Variable c : Z.

(** The [k]-th forward pass of a run of [n] iterations exists exactly when
    the first [k] iterations returned and [k < n], and it is fed the
    truncation of the sequence those iterations produced. *)
Lemma forward_inputs_nth (n k : nat) (t x : tensor2) :
  nth_error (forward_inputs (for_range n (step model c) t)) k = Some x <->
  k < n /\
  exists cur, returned (for_range k (step model c) t) = Ok cur /\
              x = truncate c cur.
Proof.
  revert k t. induction n as [| n IH]; intros k t.
  - simpl. split.
    + destruct k; discriminate.
    + intros [Hk _]. lia.
  - rewrite for_range_succ.
    destruct k as [| k].
    + assert (Hhead : nth_error (forward_inputs
                match step_result model c t with
                | Ok t' =>
                    (truncate c t
                       :: forward_inputs (for_range n (step model c) t'),
                     returned (for_range n (step model c) t'))
                | Raise e => ([truncate c t], Raise e)
                end) 0 = Some (truncate c t)).
      { destruct (step_result model c t); reflexivity. }
      rewrite Hhead. split.
      * intros Hx. injection Hx as <-. split; [lia |].
        exists t. split; reflexivity.
      * intros [_ [cur [Hcur ->]]]. simpl in Hcur.
        injection Hcur as <-. reflexivity.
    + rewrite for_range_succ.
      destruct (step_result model c t) as [t' | e]; simpl.
      * rewrite IH. split; intros [Hk Hcur]; (split; [lia | exact Hcur]).
      * split.
        -- destruct k; discriminate.
        -- intros [_ [cur [Hcur _]]]. discriminate.
Qed.

Lemma forward_inputs_count (n : nat) (t out : tensor2) :
  returned (for_range n (step model c) t) = Ok out ->
  length (forward_inputs (for_range n (step model c) t)) = n.
Proof.
  revert t. induction n as [| n IH]; intros t Hout.
  - reflexivity.
  - rewrite for_range_succ in *.
    destruct (step_result model c t) as [t' | e]; [| discriminate].
    simpl. f_equal. apply IH. exact Hout.
Qed.
End Windows.

(** ** Instances *)

#[export] Instance real_softmax_shape : SoftmaxShape R.
Proof. constructor. intros l. apply length_map. Qed.

Lemma raw_scores_shape (T : Type) : @SoftmaxShape T (raw_scores T).
Proof. constructor. reflexivity. Qed.

#[export] Instance real_order : ScoreOrder R.
Proof.
  constructor; simpl.
  - intros a. destruct (Rlt_dec a a); [lra | reflexivity].
  - intros a b c0. destruct (Rlt_dec a b), (Rlt_dec b c0), (Rlt_dec a c0);
      intros; try reflexivity; try discriminate; lra.
  - intros a b c0. destruct (Rlt_dec a b), (Rlt_dec a c0), (Rlt_dec c0 b);
      intros; auto; try discriminate; lra.
Qed.

#[export] Instance int_order : ScoreOrder Z.
Proof.
  constructor; simpl.
  - intros a. apply Z.ltb_irrefl.
  - intros a b c0. rewrite !Z.ltb_lt. lia.
  - intros a b c0. rewrite !Z.ltb_lt. lia.
Qed.

Lemma uniform_model_shape {T} (v : list T) (B s : nat) (x : tensor2) :
  shape2 B s x -> shape3 B s (length v) (map (map (fun _ => v)) x).
Proof.
  intros [HB Hrows]. split.
  - rewrite length_map. exact HB.
  - apply Forall_map. eapply Forall_impl; [| exact Hrows].
    intros row Hrow. cbv beta in *. split.
    + rewrite length_map. exact Hrow.
    + apply Forall_map. apply Forall_forall. reflexivity.
Qed.

Lemma uniform_model_conforms {T} (v : list T) (c : Z) :
  conforms (length v) c (uniform_model v).
Proof.
  intros B s x Hx _ _. eexists. split; [reflexivity |].
  apply uniform_model_shape. exact Hx.
Qed.

Lemma bounded_model_conforms {T} (limit : nat) (v : list T) (c : Z) :
  (c <= Z.of_nat limit)%Z -> conforms (length v) c (bounded_model limit v).
Proof.
  intros Hlimit B s x Hx Hs1 Hs. unfold bounded_model.
  assert (Hfits : existsb (fun row => limit <? length row) x = false).
  { destruct Hx as [_ Hrows]. induction Hrows as [| row x Hrow _ IH].
    - reflexivity.
    - simpl. rewrite IH, Hrow, orb_false_r. apply Nat.ltb_ge. lia. }
  rewrite Hfits. apply uniform_model_conforms with (c := c).
  - exact Hx.
  - exact Hs1.
  - exact Hs.
Qed.

(** ** The returned sequence *)

(** C1.  With a model that honours its interface, a non-empty seed, a
    non-negative [max_new_tokens] and a positive [context_length],
    [generate_text] returns, and every returned row is the seed row followed
    by exactly [max_new_tokens] more tokens: its length is the length of the
    seed plus [max_new_tokens]. *)
Theorem generate_text_appends
  {T : Type} `{Score T} `{Softmax T} `{!SoftmaxShape T}
  (model : @language_model T) (V B n : nat) (token_ids : tensor2)
  (max_new_tokens context_length : Z) :
  1 <= V -> conforms V context_length model ->
  shape2 B n token_ids -> 1 <= n ->
  (0 <= max_new_tokens)%Z -> (0 < context_length)%Z ->
  exists out,
    returned (generate_text model token_ids max_new_tokens context_length)
    = Ok out /\
    Forall2 (fun seed row =>
               exists generated,
                 row = seed ++ generated /\
                 Z.of_nat (length generated) = max_new_tokens)
            token_ids out /\
    length out = B /\
    Forall (fun row =>
              Z.of_nat (length row) = (Z.of_nat n + max_new_tokens)%Z) out.
Proof.
  intros HV Hmodel Hshape Hn HN Hc. unfold generate_text.
  destruct (for_range_total (Z.to_nat max_new_tokens) HV Hmodel Hc Hshape Hn)
    as [out Hout].
  exists out. split; [exact Hout |].
  pose proof (for_range_extends _ _ _ _ Hout) as Hext.
  destruct (extends_by_shape Hshape Hext) as [HB Hrows].
  split; [| split].
  - eapply Forall2_impl; [| exact Hext].
    intros seed row [generated [Hrow Hlen]]. exists generated.
    split; [exact Hrow | lia].
  - exact HB.
  - eapply Forall_impl; [| exact Hrows].
    intros row Hrow. cbv beta in *. lia.
Qed.

Lemma generate_text_appends_witness :
  exists out,
    returned (generate_text (bounded_model 4 [0; 1]%R)
                            [[15496; 11; 995]]%Z 3 4) = Ok out /\
    Forall2 (fun seed row =>
               exists generated,
                 row = seed ++ generated /\
                 Z.of_nat (length generated) = 3%Z)
            [[15496; 11; 995]]%Z out /\
    length out = 1 /\
    Forall (fun row => Z.of_nat (length row) = (Z.of_nat 3 + 3)%Z) out.
Proof.
  apply (@generate_text_appends R _ _ _ (bounded_model 4 [0; 1]%R) 2 1 3).
  - apply le_S, le_n.
  - apply (@bounded_model_conforms R 4 [0; 1]%R 4). apply Z.le_refl.
  - split; [reflexivity | repeat constructor].
  - apply le_S, le_S, le_n.
  - discriminate.
  - reflexivity.
Defined.

(** C7.  Whatever the model and the arguments, a returned sequence starts
    with the seed, unchanged and in order: truncation only changes what the
    model is fed.  And with a model that honours its interface there is a
    returned sequence. *)
Theorem generate_text_keeps_seed
  {T : Type} `{Score T} `{Softmax T}
  (model : @language_model T) (token_ids : tensor2)
  (max_new_tokens context_length : Z) :
  (forall out,
      returned (generate_text model token_ids max_new_tokens context_length)
      = Ok out ->
      Forall2 (fun seed row => firstn (length seed) row = seed)
              token_ids out) /\
  (forall V B n,
      SoftmaxShape T -> 1 <= V -> conforms V context_length model ->
      shape2 B n token_ids -> 1 <= n -> (0 < context_length)%Z ->
      exists out,
        returned (generate_text model token_ids max_new_tokens context_length)
        = Ok out).
Proof.
  split.
  - intros out Hout. unfold generate_text in Hout.
    apply for_range_extends in Hout.
    eapply Forall2_impl; [| exact Hout].
    intros seed row [generated [-> _]].
    rewrite firstn_app, Nat.sub_diag, firstn_all. simpl. apply app_nil_r.
  - intros V B n Hsm HV Hmodel Hshape Hn Hc. unfold generate_text.
    exact (for_range_total (Z.to_nat max_new_tokens) HV Hmodel Hc Hshape Hn).
Qed.

Lemma generate_text_keeps_seed_witness :
  exists out,
    returned (generate_text (bounded_model 2 [0; 1]%R)
                            [[5; 6; 7; 8; 9]]%Z 6 2) = Ok out /\
    Forall2 (fun seed row => firstn (length seed) row = seed)
            [[5; 6; 7; 8; 9]]%Z out.
Proof.
  destruct (@generate_text_keeps_seed R _ _ (bounded_model 2 [0; 1]%R)
              [[5; 6; 7; 8; 9]]%Z 6 2) as [Hkeeps Hreturns].
  destruct (Hreturns 2 1 5) as [out Hout].
  - exact real_softmax_shape.
  - apply le_S, le_n.
  - apply (@bounded_model_conforms R 2 [0; 1]%R 2). apply Z.le_refl.
  - split; [reflexivity | repeat constructor].
  - repeat constructor.
  - reflexivity.
  - exists out. split; [exact Hout | apply Hkeeps; exact Hout].
Defined.

(** ** The window *)

(** C2.  With a positive [context_length], the [k]-th forward pass of a call
    takes place exactly when [k < max_new_tokens] and the first [k]
    iterations returned, and the model is then fed, for every row of the
    current sequence, its suffix of length [min (length row)
    context_length]; so no row it is fed is longer than [context_length]. *)
Theorem model_input_is_window
  {T : Type} `{Score T} `{Softmax T}
  (model : @language_model T) (token_ids : tensor2)
  (max_new_tokens context_length : Z) (k : nat) (x : tensor2) :
  (0 < context_length)%Z ->
  (nth_error
     (forward_inputs
        (generate_text model token_ids max_new_tokens context_length)) k
   = Some x <->
   (Z.of_nat k < max_new_tokens)%Z /\
   exists current,
     returned (generate_text model token_ids (Z.of_nat k) context_length)
     = Ok current /\
     x = map (fun seq =>
                suffix (Nat.min (length seq) (Z.to_nat context_length)) seq)
             current) /\
  (nth_error
     (forward_inputs
        (generate_text model token_ids max_new_tokens context_length)) k
   = Some x ->
   Forall (fun seq => (Z.of_nat (length seq) <= context_length)%Z) x).
Proof.
  intros Hc. unfold generate_text. rewrite Nat2Z.id.
  assert (Hiff :
    nth_error
      (forward_inputs
         (for_range (Z.to_nat max_new_tokens) (step model context_length)
                    token_ids)) k = Some x <->
    (Z.of_nat k < max_new_tokens)%Z /\
    exists current,
      returned (for_range k (step model context_length) token_ids)
      = Ok current /\
      x = map (fun seq =>
                 suffix (Nat.min (length seq) (Z.to_nat context_length)) seq)
              current).
  { rewrite forward_inputs_nth. split.
    - intros [Hk [cur [Hcur ->]]]. split; [lia |].
      exists cur. split; [exact Hcur | apply truncate_window; exact Hc].
    - intros [Hk [cur [Hcur ->]]]. split; [lia |].
      exists cur. split; [exact Hcur |].
      symmetry. apply truncate_window. exact Hc. }
  split; [exact Hiff |].
  intros Hx. apply Hiff in Hx as [_ [cur [_ ->]]].
  apply Forall_map. apply Forall_forall. intros seq _.
  rewrite suffix_length; lia.
Qed.

(** The scenario of the specification: with a window of 2, the first forward
    pass on a seed of 5 tokens sees its last 2 tokens. *)
Example first_pass_sees_last_two
  {T : Type} `{Score T} `{Softmax T}
  (model : @language_model T) (a b c d e : token) (max_new_tokens : Z) :
  (0 < max_new_tokens)%Z ->
  nth_error
    (forward_inputs (generate_text model [[a; b; c; d; e]] max_new_tokens 2))
    0 = Some [[d; e]].
Proof.
  intros HN. unfold generate_text. apply forward_inputs_nth. split; [lia |].
  exists [[a; b; c; d; e]]. split; reflexivity.
Qed.

Lemma model_input_is_window_witness :
  (0 < 2)%Z /\
  exists current,
    returned (generate_text (bounded_model 2 [0; 1]%R)
                            [[5; 6; 7; 8; 9]]%Z (Z.of_nat 0) 2)
    = Ok current /\
    [[8; 9]]%Z =
    map (fun seq => suffix (Nat.min (length seq) (Z.to_nat 2)) seq) current.
Proof.
  split; [reflexivity |].
  refine (proj2 (proj1 (proj1 (@model_input_is_window R _ _
                   (bounded_model 2 [0; 1]%R)
                   [[5; 6; 7; 8; 9]]%Z 6 2 0 [[8; 9]]%Z _)) _)).
  - reflexivity.
  - apply first_pass_sees_last_two. reflexivity.
Defined.

(** C10.  With [context_length = 0] the slice [token_ids[:, -0:]] is the
    whole tensor: the [k]-th forward pass is fed the full sequence that the
    first [k] iterations produced, nothing dropped. *)
Theorem zero_context_feeds_everything
  {T : Type} `{Score T} `{Softmax T}
  (model : @language_model T) (token_ids : tensor2)
  (max_new_tokens : Z) (k : nat) (x : tensor2) :
  truncate 0 token_ids = token_ids /\
  (nth_error
     (forward_inputs (generate_text model token_ids max_new_tokens 0)) k
   = Some x <->
   (Z.of_nat k < max_new_tokens)%Z /\
   returned (generate_text model token_ids (Z.of_nat k) 0) = Ok x).
Proof.
  split; [apply truncate_zero |].
  unfold generate_text. rewrite Nat2Z.id, forward_inputs_nth. split.
  - intros [Hk [cur [Hcur ->]]]. split; [lia |].
    rewrite truncate_zero. exact Hcur.
  - intros [Hk Hx]. split; [lia |].
    exists x. split; [exact Hx | symmetry; apply truncate_zero].
Qed.

Lemma zero_context_feeds_everything_witness :
  nth_error
    (forward_inputs
       (generate_text (uniform_model [0; 1]%R) [[5; 6; 7; 8; 9]]%Z 6 0)) 0
  = Some [[5; 6; 7; 8; 9]]%Z.
Proof.
  apply (proj2 (@zero_context_feeds_everything R _ _ (uniform_model [0; 1]%R)
                  [[5; 6; 7; 8; 9]]%Z 6 0 [[5; 6; 7; 8; 9]]%Z)).
  split; reflexivity.
Defined.

(** ** Dependence on the trailing window only *)

Lemma suffix_snoc {A} (k : nat) (s : list A) (x : A) :
  1 <= k -> k <= length s ->
  suffix k (s ++ [x]) = skipn 1 (suffix k s) ++ [x].
Proof.
  intros Hk Hlen. unfold suffix.
  rewrite length_app, skipn_skipn, skipn_app. simpl length.
  replace (length s + 1 - k - length s) with 0 by lia.
  replace (1 + (length s - k)) with (length s + 1 - k) by lia.
  reflexivity.
Qed.

Lemma agree_on_last_truncate (c : Z) (t1 t2 : tensor2) :
  (0 < c)%Z -> agree_on_last (Z.to_nat c) t1 t2 ->
  truncate c t1 = truncate c t2.
Proof.
  intros Hc Hagree. rewrite !truncate_window by exact Hc.
  induction Hagree as [| s1 s2 t1 t2 [H1 [H2 Hsame]] _ IH]; simpl.
  - reflexivity.
  - rewrite !Nat.min_r by lia. rewrite Hsame, IH. reflexivity.
Qed.

Lemma agree_on_last_snoc (k : nat) (t1 t2 : tensor2) (next : list token) :
  1 <= k -> agree_on_last k t1 t2 ->
  agree_on_last k (snoc_columns t1 next) (snoc_columns t2 next).
Proof.
  intros Hk Hagree. revert next. unfold snoc_columns.
  induction Hagree as [| s1 s2 t1 t2 [H1 [H2 Hsame]] _ IH];
    intros [| x next]; simpl; try constructor.
  - rewrite !length_app. simpl. repeat split; try lia.
    rewrite !suffix_snoc by assumption. rewrite Hsame. reflexivity.
  - apply IH.
Qed.

Lemma append_columns_nil (t : tensor2) :
  append_columns t (map (fun _ => []) t) = t.
Proof.
  unfold append_columns. induction t as [| s t IH]; simpl.
  - reflexivity.
  - rewrite app_nil_r, IH. reflexivity.
Qed.

Lemma append_columns_snoc (t : tensor2) (next : list token) (G : tensor2) :
  append_columns (snoc_columns t next) G =
  append_columns t (cons_columns next G).
Proof.
  unfold append_columns, snoc_columns, cons_columns.
  revert next G. induction t as [| s t IH]; intros [| x next] [| g G];
    simpl; try reflexivity.
  rewrite <- app_assoc, IH. reflexivity.
Qed.

Lemma cons_columns_shape (n : nat) (next : list token) (G : tensor2) :
  length G = length next -> Forall (fun g => length g = n) G ->
  length (cons_columns next G) = length next /\
  Forall (fun g => length g = S n) (cons_columns next G).
Proof.
  unfold cons_columns. revert G.
  induction next as [| x next IH]; intros [| g G] Hlen HG;
    simpl in *; try discriminate.
  - split; [reflexivity | constructor].
  - inversion HG as [| ? ? Hg HG']. clear HG.
    destruct (IH G) as [IHlen IHG]; [lia | exact HG' |].
    split; [rewrite IHlen; reflexivity |].
    constructor; [simpl; rewrite Hg; reflexivity | exact IHG].
Qed.

Section WindowOnly.
Context {T : Type} `{Score T} `{Softmax T}.
Variable model : @language_model T.
Variable c : Z.
Hypothesis c_positive : (0 < c)%Z.

Lemma step_result_snoc (t : tensor2) :
  step_result model c t =
  result_bind (probabilities_of model c t) (fun p =>
  result_bind (argmax_rows p) (fun next =>
    if length t =? length next
    then Ok (snoc_columns t next) else Raise SizeMismatch)).
Proof. reflexivity. Qed.

Lemma step_same (t1 t2 : tensor2) :
  agree_on_last (Z.to_nat c) t1 t2 ->
  match step_result model c t1, step_result model c t2 with
  | Ok t1', Ok t2' =>
      exists next, length next = length t1 /\
                   t1' = snoc_columns t1 next /\
                   t2' = snoc_columns t2 next
  | Raise e1, Raise e2 => e1 = e2
  | _, _ => False
  end.
Proof.
  intros Hagree. rewrite !step_result_snoc. unfold probabilities_of.
  rewrite <- (agree_on_last_truncate c_positive Hagree).
  rewrite <- (Forall2_length Hagree).
  destruct (model (truncate c t1)) as [logits | e]; simpl;
    [| reflexivity].
  destruct (select_last logits) as [last | e]; simpl; [| reflexivity].
  destruct (argmax_rows (map softmax last)) as [next | e]; simpl;
    [| reflexivity].
  destruct (Nat.eqb_spec (length t1) (length next)) as [E | _].
  - exists next. repeat split. symmetry. exact E.
  - reflexivity.
Qed.

Lemma for_range_same (n : nat) (t1 t2 : tensor2) :
  agree_on_last (Z.to_nat c) t1 t2 ->
  forward_inputs (for_range n (step model c) t1) =
  forward_inputs (for_range n (step model c) t2) /\
  same_generation n t1 t2
    (returned (for_range n (step model c) t1))
    (returned (for_range n (step model c) t2)).
Proof.
  revert t1 t2. induction n as [| n IH]; intros t1 t2 Hagree.
  - split; [reflexivity |]. simpl.
    exists (map (fun _ => []) t1). repeat split.
    + apply length_map.
    + apply Forall_map. apply Forall_forall. reflexivity.
    + symmetry. apply append_columns_nil.
    + rewrite <- (append_columns_nil t2) at 1.
      unfold append_columns. f_equal. f_equal.
      induction Hagree; simpl; [reflexivity | f_equal; assumption].
  - rewrite !for_range_succ.
    pose proof (step_same Hagree) as Hstep.
    rewrite (agree_on_last_truncate c_positive Hagree).
    destruct (step_result model c t1) as [t1' | e1],
             (step_result model c t2) as [t2' | e2];
      try contradiction.
    + destruct Hstep as [next [Hnext [-> ->]]].
      destruct (IH (snoc_columns t1 next) (snoc_columns t2 next))
        as [Hlog Hsame].
      { apply agree_on_last_snoc; [lia | exact Hagree]. }
      split; [simpl; rewrite Hlog; reflexivity |].
      simpl. unfold same_generation in *.
      destruct (returned (for_range n (step model c) (snoc_columns t1 next)))
        as [out1 | e1],
        (returned (for_range n (step model c) (snoc_columns t2 next)))
        as [out2 | e2]; try exact Hsame.
      destruct Hsame as [G [HG [HGn [-> ->]]]].
      assert (Hlen : length G = length next).
      { rewrite HG. unfold snoc_columns.
        rewrite length_map, length_combine. lia. }
      destruct (@cons_columns_shape n next G Hlen HGn) as [Hclen Hcn].
      exists (cons_columns next G). repeat split.
      * rewrite Hclen. exact Hnext.
      * exact Hcn.
      * apply append_columns_snoc.
      * apply append_columns_snoc.
    + subst e2. split; reflexivity.
Qed.
End WindowOnly.

(** C3.  With a positive [context_length], two seeds whose rows have at
    least [context_length] tokens and agree on their last [context_length]
    tokens are continued alike by the same model: the model is fed the same
    windows, and the calls either raise the same exception or return their
    seed followed by the same [max_new_tokens] generated tokens. *)
Theorem generated_depends_on_window
  {T : Type} `{Score T} `{Softmax T}
  (model : @language_model T) (seed1 seed2 : tensor2)
  (max_new_tokens context_length : Z) :
  (0 < context_length)%Z ->
  Forall2 (fun s1 s2 =>
             (context_length <= Z.of_nat (length s1))%Z /\
             (context_length <= Z.of_nat (length s2))%Z /\
             suffix (Z.to_nat context_length) s1 =
             suffix (Z.to_nat context_length) s2)
          seed1 seed2 ->
  forward_inputs (generate_text model seed1 max_new_tokens context_length) =
  forward_inputs (generate_text model seed2 max_new_tokens context_length) /\
  same_generation (Z.to_nat max_new_tokens) seed1 seed2
    (returned (generate_text model seed1 max_new_tokens context_length))
    (returned (generate_text model seed2 max_new_tokens context_length)).
Proof.
  intros Hc Hseeds. unfold generate_text. apply for_range_same; [exact Hc |].
  unfold agree_on_last. eapply Forall2_impl; [| exact Hseeds].
  intros s1 s2 [H1 [H2 Hsame]]. repeat split; try lia. exact Hsame.
Qed.

Lemma generated_depends_on_window_witness :
  forward_inputs
    (generate_text (bounded_model 2 [0; 1]%R) [[1; 2; 3; 8; 9]]%Z 6 2) =
  forward_inputs
    (generate_text (bounded_model 2 [0; 1]%R) [[4; 8; 9]]%Z 6 2) /\
  same_generation (Z.to_nat 6) [[1; 2; 3; 8; 9]]%Z [[4; 8; 9]]%Z
    (returned
       (generate_text (bounded_model 2 [0; 1]%R) [[1; 2; 3; 8; 9]]%Z 6 2))
    (returned
       (generate_text (bounded_model 2 [0; 1]%R) [[4; 8; 9]]%Z 6 2)).
Proof.
  apply (@generated_depends_on_window R _ _ (bounded_model 2 [0; 1]%R)).
  - reflexivity.
  - constructor; [| constructor].
    split; [discriminate | split; [discriminate | reflexivity]].
Defined.

(** ** The selected token *)

Section FirstMaximum.
Context {T : Type} `{Score T} `{!ScoreOrder T}.

(** The scan, started on the rest [l] of [pre ++ l] with [best] at
    [best_i] a first maximum of [pre], ends on a first maximum of
    [pre ++ l]. *)
Lemma argmax_scan_first (l pre : list T) (best_i : nat) (best : T) :
  nth_error pre best_i = Some best ->
  (forall j w, nth_error pre j = Some w -> score_lt best w = false) ->
  (forall j w, j < best_i -> nth_error pre j = Some w ->
               score_lt w best = true) ->
  let r := argmax_scan best_i best (length pre) l in
  exists v,
    nth_error (pre ++ l) r = Some v /\
    (forall j w, nth_error (pre ++ l) j = Some w -> score_lt v w = false) /\
    (forall j w, j < r -> nth_error (pre ++ l) j = Some w ->
                 score_lt w v = true).
Proof.
  revert pre best_i best.
  induction l as [| x l IH]; intros pre best_i best Hbest Hmax Hfirst; simpl.
  - rewrite app_nil_r. exists best. auto.
  - assert (Hpre : forall j w, nth_error (pre ++ [x]) j = Some w ->
              (j < length pre /\ nth_error pre j = Some w) \/
              (j = length pre /\ w = x)).
    { intros j w Hj. destruct (Nat.lt_ge_cases j (length pre)) as [Hlt | Hge].
      - left. split; [exact Hlt |]. rewrite nth_error_app1 in Hj; assumption.
      - right. rewrite nth_error_app2 in Hj by exact Hge.
        destruct (j - length pre) as [| d] eqn:Hd; simpl in Hj.
        + injection Hj as <-. split; [lia | reflexivity].
        + destruct d; discriminate. }
    assert (Hlen : length (pre ++ [x]) = S (length pre)).
    { rewrite length_app. simpl. lia. }
    replace (pre ++ x :: l) with ((pre ++ [x]) ++ l)
      by (rewrite <- app_assoc; reflexivity).
    rewrite <- Hlen.
    destruct (score_lt best x) eqn:Hlt.
    + apply IH.
      * rewrite nth_error_app2 by lia. rewrite Nat.sub_diag. reflexivity.
      * intros j w Hj. destruct (Hpre j w Hj) as [[_ Hw] | [_ ->]].
        -- destruct (score_lt x w) eqn:Hxw; [| reflexivity].
           rewrite <- (Hmax j w Hw). symmetry.
           apply score_lt_trans with (b := x); assumption.
        -- apply score_lt_irrefl.
      * intros j w Hjlt Hj. destruct (Hpre j w Hj) as [[_ Hw] | [Hj' _]];
          [| lia].
        destruct (score_lt_cotrans best x w Hlt) as [Hbw | Hwx];
          [| exact Hwx].
        rewrite (Hmax j w Hw) in Hbw. discriminate.
    + apply IH.
      * rewrite nth_error_app1; [exact Hbest |].
        apply nth_error_Some. rewrite Hbest. discriminate.
      * intros j w Hj. destruct (Hpre j w Hj) as [[_ Hw] | [_ ->]].
        -- apply (Hmax j w Hw).
        -- exact Hlt.
      * intros j w Hjlt Hj. destruct (Hpre j w Hj) as [[_ Hw] | [Hj' _]].
        -- apply (Hfirst j w Hjlt Hw).
        -- assert (best_i < length pre); [| lia].
           apply nth_error_Some. rewrite Hbest. discriminate.
Qed.

Lemma argmax_first (p : list T) (i : nat) :
  argmax p = Ok i -> is_first_max_index p i.
Proof.
  destruct p as [| x p]; simpl; [discriminate |].
  intros Hi. injection Hi as <-.
  destruct (@argmax_scan_first p [x] 0 x) as [v [Hv [Hmax Hfirst]]].
  - reflexivity.
  - intros [| [| j]] w Hw; simpl in Hw; try discriminate.
    injection Hw as <-. apply score_lt_irrefl.
  - intros j w Hj. lia.
  - simpl in *. split.
    + exists v. split; [exact Hv | exact Hmax].
    + intros j [w [Hw Hwmax]].
      destruct (Nat.le_gt_cases (argmax_scan 0 x 1 p) j) as [Hle | Hgt];
        [exact Hle |].
      pose proof (Hfirst j w Hgt Hw) as Hlt.
      rewrite (Hwmax _ v Hv) in Hlt. discriminate.
Qed.

Lemma argmax_rows_first (P : list (list T)) (next : list token) :
  argmax_rows P = Ok next ->
  Forall2 (fun p tok => exists i, tok = Z.of_nat i /\ is_first_max_index p i)
          P next.
Proof.
  intros Hnext. apply traverse_Forall2 in Hnext.
  eapply Forall2_impl; [| exact Hnext].
  intros p tok Htok. cbv beta in Htok.
  destruct (argmax p) as [i | e] eqn:Hi; simpl in Htok; [| discriminate].
  injection Htok as <-. exists i. split; [reflexivity |].
  apply argmax_first. exact Hi.
Qed.
End FirstMaximum.

(** C5.  In an iteration that returns, the token appended to a row is an
    index of the greatest probability of that row's vector, and the lowest
    such index: when the greatest value occurs more than once, the first
    occurrence is selected. *)
Theorem step_selects_first_maximum
  {T : Type} `{Score T} `{Softmax T} `{!ScoreOrder T}
  (model : @language_model T) (context_length : Z)
  (token_ids token_ids' : tensor2) :
  returned (step model context_length token_ids) = Ok token_ids' ->
  exists probabilities next_token_id,
    probabilities_of model context_length token_ids = Ok probabilities /\
    argmax_rows probabilities = Ok next_token_id /\
    token_ids' = snoc_columns token_ids next_token_id /\
    Forall2 (fun p tok =>
               exists i, tok = Z.of_nat i /\
                         is_max_index p i /\
                         forall j, is_max_index p j -> i <= j)
            probabilities next_token_id.
Proof.
  rewrite step_eq. simpl. unfold step_result. intros Hstep.
  destruct (probabilities_of model context_length token_ids) as [P | e];
    simpl in Hstep; [| discriminate].
  destruct (argmax_rows P) as [next | e] eqn:Hnext; simpl in Hstep;
    [| discriminate].
  exists P, next. split; [reflexivity |]. split; [exact Hnext |].
  split.
  - apply cat_inv in Hstep as [_ ->]. reflexivity.
  - apply argmax_rows_first. exact Hnext.
Qed.

(** The scan on ties: the first of the two greatest scores is selected. *)
Example argmax_tie : argmax [3; 7; 7; 2]%Z = Ok 1.
Proof. reflexivity. Qed.

Example step_on_tie :
  returned (@step Z int_score (raw_scores Z)
                  (uniform_model [3; 7; 7; 2]%Z) 4 [[5; 6]]%Z)
  = Ok [[5; 6; 1]]%Z.
Proof. reflexivity. Qed.

Lemma step_selects_first_maximum_witness :
  exists probabilities next_token_id,
    @probabilities_of Z (raw_scores Z) (uniform_model [3; 7; 7; 2]%Z) 4
                      [[5; 6]]%Z = Ok probabilities /\
    argmax_rows probabilities = Ok next_token_id /\
    [[5; 6; 1]]%Z = snoc_columns [[5; 6]]%Z next_token_id /\
    Forall2 (fun p tok =>
               exists i, tok = Z.of_nat i /\
                         is_max_index p i /\
                         forall j, is_max_index p j -> i <= j)
            probabilities next_token_id.
Proof.
  apply (@step_selects_first_maximum Z int_score (raw_scores Z) int_order
           (uniform_model [3; 7; 7; 2]%Z) 4 [[5; 6]]%Z [[5; 6; 1]]%Z).
  reflexivity.
Defined.

(** ** Softmax and the arg-max *)

Section MonotoneMap.
Context {T : Type} `{Score T}.
Variable f : T -> T.
Hypothesis f_strict : forall a b, score_lt (f a) (f b) = score_lt a b.

Lemma argmax_scan_map (l : list T) (best_i i : nat) (best : T) :
  argmax_scan best_i (f best) i (map f l) = argmax_scan best_i best i l.
Proof.
  revert best_i i best. induction l as [| x l IH]; intros bi i b; simpl.
  - reflexivity.
  - rewrite f_strict. destruct (score_lt b x); apply IH.
Qed.

Lemma argmax_map (l : list T) : argmax (map f l) = argmax l.
Proof.
  destruct l as [| x l]; simpl; [reflexivity |].
  rewrite argmax_scan_map. reflexivity.
Qed.
End MonotoneMap.

Lemma sum_exp_positive (x : R) (l : list R) :
  (0 < fold_right Rplus 0 (map exp (x :: l)))%R.
Proof.
  revert x. induction l as [| y l IH]; intros x; simpl.
  - pose proof (exp_pos x). lra.
  - pose proof (exp_pos x). specialize (IH y). simpl in IH. lra.
Qed.

Lemma normalized_exp_strict (d a b : R) :
  (0 < d)%R ->
  score_lt (exp a / d)%R (exp b / d)%R = score_lt a b.
Proof.
  intros Hd. simpl.
  destruct (Rlt_dec a b) as [Hab | Hab].
  - destruct (Rlt_dec (exp a / d) (exp b / d)) as [_ | Hn];
      [reflexivity |].
    exfalso. apply Hn. apply Rmult_lt_compat_r.
    + apply Rinv_0_lt_compat. exact Hd.
    + apply exp_increasing. exact Hab.
  - destruct (Rlt_dec (exp a / d) (exp b / d)) as [Hlt | _];
      [| reflexivity].
    exfalso. apply Hab. apply exp_lt_inv.
    apply Rmult_lt_reg_r with (r := (/ d)%R).
    + apply Rinv_0_lt_compat. exact Hd.
    + exact Hlt.
Qed.

Lemma argmax_softmax_R (logits : list R) :
  argmax (softmax_R logits) = argmax logits.
Proof.
  unfold softmax_R. destruct logits as [| x l].
  - reflexivity.
  - apply argmax_map with (f := fun y =>
      (exp y / fold_right Rplus 0 (map exp (x :: l)))%R).
    intros a b. apply normalized_exp_strict. apply sum_exp_positive.
Qed.

Lemma argmax_rows_softmax_R (last : list (list R)) :
  argmax_rows (map softmax_R last) = argmax_rows last.
Proof.
  unfold argmax_rows. induction last as [| v last IH]; simpl.
  - reflexivity.
  - rewrite argmax_softmax_R, IH. reflexivity.
Qed.

Lemma for_range_ext (n : nat) (body1 body2 : tensor2 -> M tensor2)
      (t : tensor2) :
  (forall t', body1 t' = body2 t') ->
  for_range n body1 t = for_range n body2 t.
Proof.
  intros Hbody. revert t. induction n as [| n IH]; intros t; simpl.
  - reflexivity.
  - rewrite Hbody. unfold bind.
    destruct (body2 t) as [log [t' | e]]; [| reflexivity].
    rewrite IH. reflexivity.
Qed.

(** In exact arithmetic the normalization changes no arg-max: over the real
    numbers, decoding with the softmax and decoding with a direct arg-max
    over the raw scores are the same function. *)
Lemma exact_softmax_is_redundant
  (logits : list R) (model : @language_model R) (token_ids : tensor2)
  (max_new_tokens context_length : Z) :
  argmax (softmax_R logits) = argmax logits /\
  @generate_text R real_score real_softmax
                 model token_ids max_new_tokens context_length =
  @generate_text R real_score (raw_scores R)
                 model token_ids max_new_tokens context_length.
Proof.
  split; [apply argmax_softmax_R |].
  unfold generate_text. apply for_range_ext. intros t.
  rewrite !step_eq. f_equal.
  unfold step_result, probabilities_of. simpl.
  destruct (model (truncate context_length t)) as [l | e]; simpl;
    [| reflexivity].
  destruct (select_last l) as [last | e]; simpl; [| reflexivity].
  rewrite argmax_rows_softmax_R, map_id. reflexivity.
Qed.

(** *** Where the softmax keeps the order *)

Section PairedScan.
Context {T : Type} `{Score T}.
Variable pairs : list (T * T).
Hypothesis same_order :
  forall x y, In x pairs -> In y pairs ->
              score_lt (fst x) (fst y) = score_lt (snd x) (snd y).


End PairedScan.




Section OrderKept.
Context {T : Type} `{Score T} `{Softmax T}.



Variable model : @language_model T.
Variable c : Z.


End OrderKept.

(** In exact arithmetic the order of every vector is kept. *)
Lemma combine_map_In {A B} (f : A -> B) (l : list A) (p : B) (a : A) :
  In (p, a) (combine (map f l) l) -> p = f a.
Proof.
  induction l as [| x l IH]; simpl; [contradiction |].
  intros [E | Hin]; [injection E as <- <-; reflexivity | apply IH; exact Hin].
Qed.

Lemma order_kept_exact (logits : list R) : order_kept logits.
Proof.
  split; [apply length_map |].
  intros pa a pb b Ha Hb. simpl softmax in *. unfold softmax_R in *.
  destruct logits as [| x l]; [contradiction |].
  apply combine_map_In in Ha. apply combine_map_In in Hb. subst pa pb.
  apply normalized_exp_strict. apply sum_exp_positive.
Qed.


(** *** In float32 *)

#[export] Instance float_softmax_shape : SoftmaxShape float32.
Proof.
  constructor. intros [| x l]; [reflexivity |].
  simpl. rewrite !length_map. reflexivity.
Qed.





(** A vector with masked entries: the scores [-inf, 0.0, -inf] get the
    probabilities [0, 1, 0], and the order is kept. *)
Lemma softmax32_masked :
  softmax32 [neg_infinity32; zero32; neg_infinity32] =
  [zero32; one32; zero32].
Proof. reflexivity. Qed.






(** ** Determinism *)

Section Determinism.
Context {T : Type} `{Score T} `{Softmax T}.
Variable c : Z.

Lemma step_result_ext (model1 model2 : @language_model T) (t : tensor2) :
  model1 (truncate c t) = model2 (truncate c t) ->
  step_result model1 c t = step_result model2 c t.
Proof.
  intros Hsame. unfold step_result, probabilities_of.
  rewrite Hsame. reflexivity.
Qed.

Lemma for_range_scores_only (model1 model2 : @language_model T)
      (n : nat) (t : tensor2) :
  (forall x, In x (forward_inputs (for_range n (step model1 c) t)) ->
             model1 x = model2 x) ->
  for_range n (step model1 c) t = for_range n (step model2 c) t.
Proof.
  revert t. induction n as [| n IH]; intros t Hsame.
  - reflexivity.
  - rewrite for_range_succ in Hsame. rewrite !for_range_succ.
    rewrite <- (@step_result_ext model1 model2 t).
    + destruct (step_result model1 c t) as [t' | e]; [| reflexivity].
      rewrite IH; [reflexivity |].
      intros x Hx. apply Hsame. right. exact Hx.
    + apply Hsame.
      destruct (step_result model1 c t); left; reflexivity.
Qed.

Lemma forward_inputs_bounded (model : @language_model T)
      (n : nat) (t x : tensor2) :
  (0 < c)%Z ->
  In x (forward_inputs (for_range n (step model c) t)) ->
  Forall (fun seq => length seq <= Z.to_nat c) x.
Proof.
  intros Hc Hx. apply In_nth_error in Hx as [k Hk].
  apply forward_inputs_nth in Hk as [_ [cur [_ ->]]].
  rewrite truncate_window by exact Hc.
  apply Forall_map. apply Forall_forall. intros seq _.
  rewrite suffix_length; lia.
Qed.
End Determinism.

Lemma bounded_model_within {T} (limit : nat) (v : list T) (x : tensor2) :
  Forall (fun seq => length seq <= limit) x ->
  bounded_model limit v x = uniform_model v x.
Proof.
  intros Hx. unfold bounded_model.
  replace (existsb (fun row => limit <? length row) x) with false;
    [reflexivity |].
  induction Hx as [| seq x Hseq _ IH]; simpl.
  - reflexivity.
  - rewrite <- IH, orb_false_r. symmetry. apply Nat.ltb_ge. exact Hseq.
Qed.

(** C6.  The outcome of a call is a function of the seed, of
    [max_new_tokens], of [context_length] and of the scores the model gives
    on the windows it is fed, and of nothing else: two calls with these
    arguments equal, whose models answer alike on the windows fed, feed the
    same windows and return the same sequence (or raise the same
    exception).  Two calls with the same model are the case
    [model1 = model2]. *)
Theorem generate_text_deterministic
  {T : Type} `{Score T} `{Softmax T}
  (model1 model2 : @language_model T) (token_ids : tensor2)
  (max_new_tokens context_length : Z) :
  (forall x,
      In x (forward_inputs
              (generate_text model1 token_ids max_new_tokens context_length))
      -> model1 x = model2 x) ->
  generate_text model1 token_ids max_new_tokens context_length =
  generate_text model2 token_ids max_new_tokens context_length.
Proof.
  unfold generate_text. apply for_range_scores_only.
Qed.

Lemma generate_text_deterministic_witness :
  generate_text (uniform_model [0; 1]%R) [[5; 6; 7; 8; 9]]%Z 6 2 =
  generate_text (bounded_model 2 [0; 1]%R) [[5; 6; 7; 8; 9]]%Z 6 2.
Proof.
  apply (@generate_text_deterministic R _ _).
  intros x Hx. symmetry. apply bounded_model_within.
  unfold generate_text in Hx.
  apply (@forward_inputs_bounded R _ _ 2 (uniform_model [0; 1]%R)
           (Z.to_nat 6) [[5; 6; 7; 8; 9]]%Z x).
  - reflexivity.
  - exact Hx.
Defined.

(** ** The sentinel *)

Lemma lower_char_e (a : ascii) :
  lower_char a = "e"%char -> a = "e"%char \/ a = "E"%char.
Proof.
  destruct a as [[] [] [] [] [] [] [] []]; vm_compute; intros E;
    try discriminate E; auto.
Qed.

Lemma lower_char_x (a : ascii) :
  lower_char a = "x"%char -> a = "x"%char \/ a = "X"%char.
Proof.
  destruct a as [[] [] [] [] [] [] [] []]; vm_compute; intros E;
    try discriminate E; auto.
Qed.

Lemma lower_char_i (a : ascii) :
  lower_char a = "i"%char -> a = "i"%char \/ a = "I"%char.
Proof.
  destruct a as [[] [] [] [] [] [] [] []]; vm_compute; intros E;
    try discriminate E; auto.
Qed.

Lemma lower_char_t (a : ascii) :
  lower_char a = "t"%char -> a = "t"%char \/ a = "T"%char.
Proof.
  destruct a as [[] [] [] [] [] [] [] []]; vm_compute; intros E;
    try discriminate E; auto.
Qed.

Lemma lower_exit (s : string) :
  lower s = "exit"%string <-> In s exit_spellings.
Proof.
  split.
  - destruct s as [| a1 [| a2 [| a3 [| a4 [| a5 s]]]]]; simpl;
      try discriminate.
    intros E. injection E as E1 E2 E3 E4.
    apply lower_char_e in E1. apply lower_char_x in E2.
    apply lower_char_i in E3. apply lower_char_t in E4.
    destruct E1 as [-> | ->], E2 as [-> | ->], E3 as [-> | ->],
             E4 as [-> | ->]; simpl; auto 20.
  - intros Hin. simpl in Hin.
    repeat (destruct Hin as [<- | Hin]; [reflexivity |]).
    contradiction.
Qed.

Section SessionFacts.
Context {T : Type} `{Score T} `{Softmax T}.
Variable tokenizer : Tokenizer.
Variable model : @language_model T.
Variable c : Z.

Lemma session_exit (user_input : string) (rest : list string) :
  lower user_input = "exit"%string ->
  session tokenizer model c (user_input :: rest) =
  ([EvInput user_prompt (Some user_input)], Exited).
Proof.
  intros E. simpl. rewrite E. reflexivity.
Qed.

Lemma session_turn (user_input : string) (rest : list string) :
  lower user_input <> "exit"%string ->
  session tokenizer model c (user_input :: rest) =
  match turn tokenizer model c user_input with
  | (events, Raise e) =>
      (EvInput user_prompt (Some user_input) :: events, Crashed e)
  | (events, Ok _) =>
      (EvInput user_prompt (Some user_input) :: events
         ++ fst (session tokenizer model c rest),
       snd (session tokenizer model c rest))
  end.
Proof.
  intros E. apply String.eqb_neq in E. simpl. rewrite E.
  destruct (turn tokenizer model c user_input) as [events [u | e]];
    [| reflexivity].
  destruct (session tokenizer model c rest). reflexivity.
Qed.

Lemma first_forward_input (n : nat) (t : tensor2) :
  exists later,
    forward_inputs (for_range (S n) (step model c) t) =
    truncate c t :: later.
Proof.
  rewrite for_range_succ.
  destruct (step_result model c t); eexists; reflexivity.
Qed.


Lemma turn_replies `{!SoftmaxShape T} (V : nat) (user_input : string) :
  1 <= V -> conforms V c model -> (0 < c)%Z ->
  encode tokenizer user_input <> [] ->
  replies tokenizer model c user_input.
Proof.
  intros HV Hmodel Hc Hseed.
  set (seed := encode tokenizer user_input) in *.
  assert (Hshape : shape2 1 (length seed) [seed]).
  { split; [reflexivity | repeat constructor]. }
  assert (Hlen : 1 <= length seed).
  { destruct seed; [contradiction | simpl; lia]. }
  destruct (for_range_total 6 HV Hmodel Hc Hshape Hlen) as [out Hout].
  pose proof (for_range_extends _ _ _ _ Hout) as Hext.
  pose proof (forward_inputs_count _ _ _ _ Hout) as Hcount.
  inversion Hext as [| ? row ? out' [generated [Hrow Hgen]] Hnil]. subst.
  inversion Hnil. subst.
  exists generated. split; [exact Hgen |].
  fold seed. cbv zeta. unfold generate_text.
  change (Z.to_nat 6) with 6. split; [exact Hout |].
  split; [exact Hcount |].
  unfold turn, generate_text. change (Z.to_nat 6) with 6.
  fold seed. rewrite Hout. reflexivity.
Qed.
End SessionFacts.



(** ** A turn *)

(** C9, as amended.  On every line that is not the sentinel and whose
    encoding is not empty, with a model that honours its interface and a
    positive configured context length, the loop encodes the line, runs the
    decoding loop on it with [max_new_tokens = 6] and the configured
    [context_length] (six forward passes), decodes the seed followed by the
    6 generated tokens, prints the text, and goes on with the next line. *)
Theorem non_exit_line_is_answered
  {T : Type} `{Score T} `{Softmax T} `{!SoftmaxShape T}
  (tokenizer : Tokenizer) (model : @language_model T) (context_length : Z)
  (V : nat) (user_input : string) (rest : list string) :
  1 <= V -> conforms V context_length model -> (0 < context_length)%Z ->
  ~ In user_input exit_spellings ->
  encode tokenizer user_input <> [] ->
  replies tokenizer model context_length user_input /\
  session tokenizer model context_length (user_input :: rest) =
  (EvInput user_prompt (Some user_input)
     :: fst (turn tokenizer model context_length user_input)
     ++ fst (session tokenizer model context_length rest),
   snd (session tokenizer model context_length rest)).
Proof.
  intros HV Hmodel Hc Hline Hseed.
  pose proof (turn_replies tokenizer user_input HV Hmodel Hc Hseed)
    as Hreplies.
  split; [exact Hreplies |].
  rewrite session_turn.
  - destruct Hreplies as [generated [_ [_ [_ Hturn]]]].
    cbv zeta in Hturn. rewrite Hturn. reflexivity.
  - intros E. apply Hline. apply lower_exit. exact E.
Qed.

Lemma non_exit_line_is_answered_witness :
  replies byte_tokenizer (bounded_model 4 [0; 1]%R) 4 "hello"%string /\
  session byte_tokenizer (bounded_model 4 [0; 1]%R) 4
          ["hello"; "exit"]%string =
  (EvInput user_prompt (Some "hello"%string)
     :: fst (turn byte_tokenizer (bounded_model 4 [0; 1]%R) 4 "hello"%string)
     ++ fst (session byte_tokenizer (bounded_model 4 [0; 1]%R) 4
                     ["exit"%string]),
   snd (session byte_tokenizer (bounded_model 4 [0; 1]%R) 4
                ["exit"%string])).
Proof.
  apply (@non_exit_line_is_answered R _ _ _ byte_tokenizer
           (bounded_model 4 [0; 1]%R) 4 2 "hello"%string ["exit"%string]).
  - apply le_S, le_n.
  - apply (@bounded_model_conforms R 4 [0; 1]%R 4). apply Z.le_refl.
  - reflexivity.
  - simpl. intros Hin.
    repeat (destruct Hin as [E | Hin]; [discriminate E |]).
    exact Hin.
  - discriminate.
Defined.

(** C9, as stated, fails on the empty line: it is not the sentinel, its
    encoding is empty, the model is called on an empty window and, having no
    position to score, leaves [logits[:, -1, :]] nothing to select; the
    exception ends the session and nothing is decoded or printed. *)
Lemma empty_line_is_not_answered :
  ~ In ""%string exit_spellings /\
  conforms 2 4 (uniform_model [0; 1]%R) /\
  ~ replies byte_tokenizer (uniform_model [0; 1]%R) 4 ""%string /\
  session byte_tokenizer (uniform_model [0; 1]%R) 4 [""%string] =
  ([EvInput user_prompt (Some ""%string); EvEncode ""%string;
    EvForward [[]]],
   Crashed IndexError).
Proof.
  split; [| split; [| split]].
  - simpl. intros Hin.
    repeat (destruct Hin as [E | Hin]; [discriminate E |]).
    exact Hin.
  - apply (@uniform_model_conforms R [0; 1]%R 4).
  - intros [generated [_ [Hrun _]]]. cbv zeta in Hrun.
    discriminate Hrun.
  - reflexivity.
Qed.

(** ** Runs on integer scores *)

Section Runs.
Let decode_greedy :=
  @generate_text Z int_score (raw_scores Z) (successor_model 10).

Example run_hello_world :
  returned (decode_greedy [[15496; 11; 995]]%Z 1%Z 1024%Z)
  = Ok [[15496; 11; 995; 6]]%Z.
Proof. reflexivity. Qed.

Example run_windows :
  decode_greedy [[1; 2; 3; 4; 5]]%Z 3%Z 2%Z =
  ([ [[4; 5]]; [[5; 6]]; [[6; 7]] ]%Z, Ok [[1; 2; 3; 4; 5; 6; 7; 8]]%Z).
Proof. reflexivity. Qed.

Example run_zero_context :
  decode_greedy [[1; 2]]%Z 2%Z 0%Z =
  ([ [[1; 2]]; [[1; 2; 3]] ]%Z, Ok [[1; 2; 3; 4]]%Z).
Proof. reflexivity. Qed.

Example run_no_iteration :
  decode_greedy [[1; 2]]%Z (-3)%Z 2%Z = ([], Ok [[1; 2]]%Z).
Proof. reflexivity. Qed.

Example run_batch :
  returned (decode_greedy [[1; 2]; [7; 8]]%Z 2%Z 4%Z)
  = Ok [[1; 2; 3; 4]; [7; 8; 9; 0]]%Z.
Proof. reflexivity. Qed.

Example run_empty_seed :
  decode_greedy [[]]%Z 6%Z 4%Z = ([ [[]] ], Raise IndexError).
Proof. reflexivity. Qed.
End Runs.

(** * Further properties of the decoding loop *)

(** ** Sequencing *)

Lemma bind_ret_l {A B} (a : A) (k : A -> M B) : bind (ret a) k = k a.
Proof. unfold bind, ret. destruct (k a). reflexivity. Qed.

Lemma bind_assoc {A B C} (m : M A) (f : A -> M B) (g : B -> M C) :
  bind (bind m f) g = bind m (fun a => bind (f a) g).
Proof.
  destruct m as [log [a | e]]; simpl; [| reflexivity].
  destruct (f a) as [log1 [b | e]]; simpl; [| reflexivity].
  destruct (g b) as [log2 r]. rewrite app_assoc. reflexivity.
Qed.

Lemma for_range_add (n m : nat) (body : tensor2 -> M tensor2) (t : tensor2) :
  for_range (n + m) body t = bind (for_range n body t) (for_range m body).
Proof.
  revert t. induction n as [| n IH]; intros t.
  - change (for_range m body t = bind (ret t) (for_range m body)).
    rewrite bind_ret_l. reflexivity.
  - change (bind (body t) (for_range (n + m) body) =
            bind (bind (body t) (for_range n body)) (for_range m body)).
    rewrite bind_assoc. unfold bind at 1 2.
    destruct (body t) as [log [t' | e]]; [| reflexivity].
    rewrite IH. reflexivity.
Qed.

(** X1.  Generating [n1 + n2] tokens is generating [n1] tokens and then
    [n2] more from the sequence obtained, forward passes in that order; a
    failure of the first part is the failure of the whole. *)
Theorem generation_composes
  {T : Type} `{Score T} `{Softmax T}
  (model : @language_model T) (token_ids : tensor2)
  (n1 n2 context_length : Z) :
  (0 <= n1)%Z -> (0 <= n2)%Z ->
  generate_text model token_ids (n1 + n2) context_length =
  bind (generate_text model token_ids n1 context_length)
       (fun sequence => generate_text model sequence n2 context_length).
Proof.
  intros H1 H2. unfold generate_text.
  rewrite Z2Nat.inj_add by assumption. apply for_range_add.
Qed.

Lemma generation_composes_witness :
  @generate_text Z int_score (raw_scores Z) (successor_model 10)
                 [[1; 2]]%Z (1 + 2) 2 =
  bind (@generate_text Z int_score (raw_scores Z) (successor_model 10)
                       [[1; 2]]%Z 1 2)
       (fun sequence =>
          @generate_text Z int_score (raw_scores Z) (successor_model 10)
                         sequence 2 2).
Proof.
  apply (@generation_composes Z int_score (raw_scores Z)
           (successor_model 10) [[1; 2]]%Z 1 2 2); discriminate.
Defined.

Lemma bind_Ok_inv {A B} (m : M A) (k : A -> M B) (b : B) :
  returned (bind m k) = Ok b ->
  exists a, returned m = Ok a /\ returned (k a) = Ok b /\
            forward_inputs (bind m k) = forward_inputs m ++ forward_inputs (k a).
Proof.
  destruct m as [log [a | e]]; simpl; [| discriminate].
  destruct (k a) as [log' r] eqn:Hk. simpl. intros ->.
  exists a. rewrite Hk. repeat split.
Qed.

(** X2.  Asking for more tokens never changes the earlier ones: a call for
    [n1 + n2] tokens that returns goes through the sequence that the call
    for [n1] tokens returns, starts with the same forward passes, and
    appends [n2] tokens to that sequence. *)
Theorem more_tokens_extend_fewer
  {T : Type} `{Score T} `{Softmax T}
  (model : @language_model T) (token_ids out : tensor2)
  (n1 n2 context_length : Z) :
  (0 <= n1)%Z -> (0 <= n2)%Z ->
  returned (generate_text model token_ids (n1 + n2) context_length) = Ok out ->
  exists shorter later,
    returned (generate_text model token_ids n1 context_length) = Ok shorter /\
    forward_inputs (generate_text model token_ids (n1 + n2) context_length) =
    forward_inputs (generate_text model token_ids n1 context_length)
      ++ later /\
    Forall2 (fun row1 row =>
               exists more, row = row1 ++ more /\
                            Z.of_nat (length more) = n2)
            shorter out.
Proof.
  intros H1 H2. unfold generate_text.
  rewrite Z2Nat.inj_add by assumption. rewrite for_range_add.
  intros Hout. apply bind_Ok_inv in Hout as [mid [Hmid [Hrest Hlog]]].
  exists mid, (forward_inputs
                 (for_range (Z.to_nat n2) (step model context_length) mid)).
  split; [exact Hmid |]. split; [exact Hlog |].
  apply for_range_extends in Hrest.
  eapply Forall2_impl; [| exact Hrest].
  intros row1 row [more [-> Hmore]]. exists more.
  split; [reflexivity | lia].
Qed.

Lemma more_tokens_extend_fewer_witness :
  exists shorter later,
    returned (@generate_text Z int_score (raw_scores Z) (successor_model 10)
                             [[1; 2]]%Z 1 2) = Ok shorter /\
    forward_inputs
      (@generate_text Z int_score (raw_scores Z) (successor_model 10)
                      [[1; 2]]%Z (1 + 2) 2) =
    forward_inputs
      (@generate_text Z int_score (raw_scores Z) (successor_model 10)
                      [[1; 2]]%Z 1 2) ++ later /\
    Forall2 (fun row1 row =>
               exists more, row = row1 ++ more /\
                            Z.of_nat (length more) = 2%Z)
            shorter [[1; 2; 3; 4; 5]]%Z.
Proof.
  apply (@more_tokens_extend_fewer Z int_score (raw_scores Z)
           (successor_model 10) [[1; 2]]%Z [[1; 2; 3; 4; 5]]%Z 1 2 2).
  - discriminate.
  - discriminate.
  - reflexivity.
Defined.

(** ** Failures *)

Section FailFast.
Context {T : Type} `{Score T} `{Softmax T}.
Variable model : @language_model T.
Variable c : Z.

Lemma for_range_raises (n : nat) (t : tensor2) (e : exn) :
  returned (for_range n (step model c) t) = Raise e ->
  exists k current,
    k < n /\
    returned (for_range k (step model c) t) = Ok current /\
    returned (step model c current) = Raise e /\
    forward_inputs (for_range n (step model c) t) =
    forward_inputs (for_range k (step model c) t) ++ [truncate c current].
Proof.
  revert t. induction n as [| n IH]; intros t Hraise.
  - discriminate.
  - rewrite for_range_succ in Hraise. rewrite for_range_succ.
    destruct (step_result model c t) as [t' | e'] eqn:Hstep.
    + destruct (IH t' Hraise) as [k [cur [Hk [Hcur [Hfail Hlog]]]]].
      exists (S k), cur. split; [lia |].
      rewrite for_range_succ, Hstep. simpl.
      split; [exact Hcur |]. split; [exact Hfail |].
      simpl in Hlog. rewrite Hlog. reflexivity.
    + simpl in Hraise. injection Hraise as ->.
      exists 0, t. split; [lia |]. split; [reflexivity |].
      rewrite step_eq. split; [exact Hstep | reflexivity].
Qed.
End FailFast.

(** X3.  The loop stops at the first iteration that fails: a call that
    raises has gone through some [k < max_new_tokens] iterations that
    returned, raises what the next iteration raises on the sequence they
    produced, and its last forward pass is the one of that iteration. *)
Theorem generate_text_fails_fast
  {T : Type} `{Score T} `{Softmax T}
  (model : @language_model T) (token_ids : tensor2)
  (max_new_tokens context_length : Z) (e : exn) :
  returned (generate_text model token_ids max_new_tokens context_length)
  = Raise e ->
  exists (k : nat) (current : tensor2),
    (Z.of_nat k < max_new_tokens)%Z /\
    returned (generate_text model token_ids (Z.of_nat k) context_length)
    = Ok current /\
    returned (step model context_length current) = Raise e /\
    forward_inputs
      (generate_text model token_ids max_new_tokens context_length) =
    forward_inputs
      (generate_text model token_ids (Z.of_nat k) context_length)
      ++ [truncate context_length current].
Proof.
  unfold generate_text. intros Hraise.
  apply for_range_raises in Hraise as [k [cur [Hk Hrest]]].
  exists k, cur. rewrite Nat2Z.id. split; [lia | exact Hrest].
Qed.

Lemma generate_text_fails_fast_witness :
  exists (k : nat) (current : tensor2),
    (Z.of_nat k < 6)%Z /\
    returned (@generate_text Z int_score (raw_scores Z) (bounded_model 3 [0; 1]%Z)
                             [[1; 2]]%Z (Z.of_nat k) 5) = Ok current /\
    returned (@step Z int_score (raw_scores Z) (bounded_model 3 [0; 1]%Z)
                    5 current) = Raise ModelError /\
    forward_inputs
      (@generate_text Z int_score (raw_scores Z) (bounded_model 3 [0; 1]%Z)
                      [[1; 2]]%Z 6 5) =
    forward_inputs
      (@generate_text Z int_score (raw_scores Z) (bounded_model 3 [0; 1]%Z)
                      [[1; 2]]%Z (Z.of_nat k) 5)
      ++ [truncate 5 current].
Proof.
  apply (@generate_text_fails_fast Z int_score (raw_scores Z)
           (bounded_model 3 [0; 1]%Z) [[1; 2]]%Z 6 5 ModelError).
  reflexivity.
Defined.

(** ** More on the window *)

Lemma slice_from_tail {A} (start : Z) (l : list A) :
  exists dropped, l = dropped ++ slice_from start l.
Proof.
  unfold slice_from. eexists. symmetry. apply firstn_skipn.
Qed.

Lemma skipn_min_length {A} (k : nat) (l : list A) :
  skipn (Nat.min k (length l)) l = skipn k l.
Proof.
  destruct (Nat.le_gt_cases k (length l)) as [Hle | Hgt].
  - rewrite Nat.min_l by exact Hle. reflexivity.
  - rewrite Nat.min_r by lia. rewrite !skipn_all2 by lia. reflexivity.
Qed.

Lemma slice_from_front {A} (c : Z) (l : list A) :
  (c < 0)%Z -> slice_from (- c) l = skipn (Z.to_nat (- c)) l.
Proof.
  intros Hc. unfold slice_from.
  destruct (Z.ltb_spec (- c) 0) as [Hlt | _]; [lia |].
  rewrite <- (skipn_min_length (Z.to_nat (- c)) l). f_equal. lia.
Qed.

Lemma truncate_fits (c : Z) (t : tensor2) :
  (0 <= c)%Z -> Forall (fun row => (Z.of_nat (length row) <= c)%Z) t ->
  truncate c t = t.
Proof.
  intros Hc Hrows. unfold truncate.
  induction Hrows as [| row t Hrow _ IH]; simpl; [reflexivity |].
  rewrite IH. f_equal. unfold slice_from.
  destruct (Z.ltb_spec (- c) 0) as [Hlt | Hge].
  - replace (Z.to_nat (Z.max (Z.of_nat (length row) + - c) 0)) with 0 by lia.
    reflexivity.
  - replace (Z.to_nat (Z.min (- c) (Z.of_nat (length row)))) with 0 by lia.
    reflexivity.
Qed.


Section WindowFacts.
Context {T : Type} `{Score T} `{Softmax T}.
Variable model : @language_model T.
Variable c : Z.



Lemma for_range_shape (k B n : nat) (t out : tensor2) :
  shape2 B n t ->
  returned (for_range k (step model c) t) = Ok out ->
  shape2 B (n + k) out.
Proof.
  intros Ht Hout. apply extends_by_shape with (t := t); [exact Ht |].
  apply for_range_extends with (model := model) (c := c). exact Hout.
Qed.

Lemma step_same_window (c' : Z) (t : tensor2) :
  truncate c t = truncate c' t ->
  step model c t = step model c' t.
Proof.
  intros Hsame. rewrite !step_eq.
  unfold step_result, probabilities_of. rewrite Hsame. reflexivity.
Qed.

Lemma for_range_fits (k B n : nat) (t : tensor2) :
  shape2 B n t -> (Z.of_nat (n + k) <= c)%Z ->
  for_range k (step model c) t = for_range k (step model 0) t.
Proof.
  revert n t. induction k as [| k IH]; intros n t Ht Hfit.
  - reflexivity.
  - assert (Hstep : step model c t = step model 0 t).
    { apply step_same_window. rewrite truncate_zero.
      apply truncate_fits; [lia |].
      destruct Ht as [_ Hrows]. eapply Forall_impl; [| exact Hrows].
      intros row Hrow. cbv beta in *. lia. }
    simpl. rewrite Hstep. rewrite step_eq. unfold bind.
    destruct (step_result model 0 t) as [t' | e] eqn:Ht'; [| reflexivity].
    rewrite (IH (n + 1) t'); [reflexivity | | lia].
    apply extends_by_shape with (t := t); [exact Ht |].
    eapply extends_by_step; [| apply extends_by_zero].
    eapply step_extends. exact Ht'.
Qed.
End WindowFacts.

(** X4.  Whatever [context_length] is (positive, zero or negative), every
    forward pass is fed, row by row, a tail of the current sequence: tokens
    are only ever dropped from the front. *)
Theorem window_is_a_tail
  {T : Type} `{Score T} `{Softmax T}
  (model : @language_model T) (token_ids : tensor2)
  (max_new_tokens context_length : Z) (k : nat) (x : tensor2) :
  nth_error
    (forward_inputs
       (generate_text model token_ids max_new_tokens context_length)) k
  = Some x ->
  exists current,
    returned (generate_text model token_ids (Z.of_nat k) context_length)
    = Ok current /\
    Forall2 (fun row window => exists dropped, row = dropped ++ window)
            current x.
Proof.
  unfold generate_text. rewrite Nat2Z.id.
  intros Hx. apply forward_inputs_nth in Hx as [_ [cur [Hcur ->]]].
  exists cur. split; [exact Hcur |].
  unfold truncate. clear Hcur. induction cur as [| row cur IH]; simpl.
  - constructor.
  - constructor; [apply slice_from_tail | exact IH].
Qed.

Lemma window_is_a_tail_witness :
  exists current,
    returned (@generate_text Z int_score (raw_scores Z) (successor_model 10)
                             [[1; 2; 3]]%Z (Z.of_nat 1) (-2)) = Ok current /\
    Forall2 (fun row window => exists dropped, row = dropped ++ window)
            current [[3; 4]]%Z.
Proof.
  apply (@window_is_a_tail Z int_score (raw_scores Z) (successor_model 10)
           [[1; 2; 3]]%Z 3 (-2) 1 [[3; 4]]%Z).
  reflexivity.
Defined.

(** X5.  A negative [context_length] is accepted: the slice
    [token_ids[:, -context_length:]] then starts at index [-context_length],
    so every forward pass is fed the current sequence without its first
    [-context_length] tokens, and the window is not bounded. *)
Theorem negative_context_drops_front
  {T : Type} `{Score T} `{Softmax T}
  (model : @language_model T) (token_ids : tensor2)
  (max_new_tokens context_length : Z) (k : nat) (x : tensor2) :
  (context_length < 0)%Z ->
  (nth_error
     (forward_inputs
        (generate_text model token_ids max_new_tokens context_length)) k
   = Some x <->
   (Z.of_nat k < max_new_tokens)%Z /\
   exists current,
     returned (generate_text model token_ids (Z.of_nat k) context_length)
     = Ok current /\
     x = map (skipn (Z.to_nat (- context_length))) current).
Proof.
  intros Hc. unfold generate_text. rewrite Nat2Z.id, forward_inputs_nth.
  assert (Htr : forall t,
             truncate context_length t =
             map (skipn (Z.to_nat (- context_length))) t).
  { intros t. unfold truncate. apply map_ext. intros row.
    apply slice_from_front. exact Hc. }
  split.
  - intros [Hk [cur [Hcur ->]]]. split; [lia |].
    exists cur. split; [exact Hcur | apply Htr].
  - intros [Hk [cur [Hcur ->]]]. split; [lia |].
    exists cur. split; [exact Hcur | symmetry; apply Htr].
Qed.

Lemma negative_context_drops_front_witness :
  nth_error
    (forward_inputs
       (@generate_text Z int_score (raw_scores Z) (successor_model 10)
                       [[1; 2; 3]]%Z 3 (-2))) 1
  = Some [[3; 4]]%Z.
Proof.
  apply (proj2 (@negative_context_drops_front Z int_score (raw_scores Z)
                  (successor_model 10) [[1; 2; 3]]%Z 3 (-2) 1 [[3; 4]]%Z
                  eq_refl)).
  split; [reflexivity |].
  exists [[1; 2; 3; 4]]%Z. split; reflexivity.
Defined.

(** X6.  With a positive [context_length] and a seed of [n] tokens per row,
    the window of the [k]-th forward pass has [min (n + k) context_length]
    tokens per row: it grows by one token per iteration until it has
    [context_length] tokens, and then keeps that size. *)
Theorem window_grows_then_saturates
  {T : Type} `{Score T} `{Softmax T}
  (model : @language_model T) (B n : nat) (token_ids : tensor2)
  (max_new_tokens context_length : Z) (k : nat) (x : tensor2) :
  (0 < context_length)%Z -> shape2 B n token_ids ->
  nth_error
    (forward_inputs
       (generate_text model token_ids max_new_tokens context_length)) k
  = Some x ->
  length x = B /\
  Forall (fun window =>
            Z.of_nat (length window) =
            Z.min (Z.of_nat n + Z.of_nat k) context_length) x.
Proof.
  intros Hc Ht. unfold generate_text.
  intros Hx. apply forward_inputs_nth in Hx as [_ [cur [Hcur ->]]].
  pose proof (for_range_shape _ _ _ Ht Hcur) as Hshape.
  destruct (truncate_shape Hc Hshape) as [HB Hrows].
  split; [exact HB |].
  eapply Forall_impl; [| exact Hrows].
  intros window Hw. cbv beta in *. lia.
Qed.

Lemma window_grows_then_saturates_witness :
  length [[3; 4; 5]]%Z = 1 /\
  Forall (fun window =>
            Z.of_nat (length window) = Z.min (Z.of_nat 2 + Z.of_nat 3) 3)
         [[3; 4; 5]]%Z.
Proof.
  apply (@window_grows_then_saturates Z int_score (raw_scores Z)
           (successor_model 10) 1 2 [[1; 2]]%Z 6 3 3 [[3; 4; 5]]%Z).
  - reflexivity.
  - split; [reflexivity | repeat constructor].
  - reflexivity.
Defined.



(** X8.  A [context_length] at least as large as the final sequence drops
    nothing: the call is the call with [context_length = 0], forward passes
    and result. *)
Theorem large_context_is_no_truncation
  {T : Type} `{Score T} `{Softmax T}
  (model : @language_model T) (B n : nat) (token_ids : tensor2)
  (max_new_tokens context_length : Z) :
  shape2 B n token_ids ->
  (Z.of_nat n + Z.max max_new_tokens 0 <= context_length)%Z ->
  generate_text model token_ids max_new_tokens context_length =
  generate_text model token_ids max_new_tokens 0.
Proof.
  intros Ht Hfit. unfold generate_text.
  apply for_range_fits with (B := B) (n := n); [exact Ht | lia].
Qed.

Lemma large_context_is_no_truncation_witness :
  generate_text (uniform_model [0; 1]%R) [[15496; 11; 995]]%Z 6 1024 =
  generate_text (uniform_model [0; 1]%R) [[15496; 11; 995]]%Z 6 0.
Proof.
  apply (@large_context_is_no_truncation R _ _ (uniform_model [0; 1]%R) 1 3).
  - split; [reflexivity | repeat constructor].
  - discriminate.
Defined.

(** ** Edge cases of a call *)

(** X9.  With [max_new_tokens <= 0] the loop body never runs: the seed is
    returned as it is and the model is not called, whatever the seed and
    the model.  With [max_new_tokens > 0] the model is called, first on the
    truncated seed. *)
Theorem nothing_to_generate
  {T : Type} `{Score T} `{Softmax T}
  (model : @language_model T) (token_ids : tensor2)
  (max_new_tokens context_length : Z) :
  ((max_new_tokens <= 0)%Z ->
   generate_text model token_ids max_new_tokens context_length
   = ([], Ok token_ids)) /\
  ((0 < max_new_tokens)%Z ->
   exists later,
     forward_inputs
       (generate_text model token_ids max_new_tokens context_length)
     = truncate context_length token_ids :: later).
Proof.
  unfold generate_text. split; intros HN.
  - replace (Z.to_nat max_new_tokens) with 0 by lia. reflexivity.
  - destruct (Z.to_nat max_new_tokens) as [| n] eqn:Hn; [lia |].
    apply first_forward_input.
Qed.

Lemma nothing_to_generate_witness :
  generate_text (uniform_model [0; 1]%R) [[]] (-1) 4 = ([], Ok [[]]).
Proof.
  apply (proj1 (@nothing_to_generate R _ _ (uniform_model [0; 1]%R)
                  [[]] (-1) 4)).
  discriminate.
Defined.

(** X10.  Whatever the model and the arguments, a call that returns has
    kept the number of rows and appended exactly [max 0 max_new_tokens]
    tokens to every row. *)
Theorem returned_rows_any_model
  {T : Type} `{Score T} `{Softmax T}
  (model : @language_model T) (token_ids out : tensor2)
  (max_new_tokens context_length : Z) :
  returned (generate_text model token_ids max_new_tokens context_length)
  = Ok out ->
  length out = length token_ids /\
  Forall2 (fun seed row =>
             exists generated,
               row = seed ++ generated /\
               Z.of_nat (length generated) = Z.max 0 max_new_tokens)
          token_ids out.
Proof.
  unfold generate_text. intros Hout. apply for_range_extends in Hout.
  split; [symmetry; apply (Forall2_length Hout) |].
  eapply Forall2_impl; [| exact Hout].
  intros seed row [generated [-> Hgen]]. exists generated.
  split; [reflexivity | lia].
Qed.

Lemma returned_rows_any_model_witness :
  length [[1; 2; 3; 4]; [7; 8; 9; 0]]%Z = length [[1; 2]; [7; 8]]%Z /\
  Forall2 (fun seed row =>
             exists generated,
               row = seed ++ generated /\
               Z.of_nat (length generated) = Z.max 0 2)
          [[1; 2]; [7; 8]]%Z [[1; 2; 3; 4]; [7; 8; 9; 0]]%Z.
Proof.
  apply (@returned_rows_any_model Z int_score (raw_scores Z)
           (successor_model 10) [[1; 2]; [7; 8]]%Z
           [[1; 2; 3; 4]; [7; 8; 9; 0]]%Z 2 (-1)).
  reflexivity.
Defined.

Lemma slice_from_nil {A} (start : Z) : slice_from start (@nil A) = [].
Proof. unfold slice_from. apply skipn_nil. Qed.

Lemma truncate_empty_rows (c : Z) (t : tensor2) :
  Forall (fun row => row = []) t -> truncate c t = t.
Proof.
  unfold truncate. induction 1 as [| row t -> _ IH]; simpl.
  - reflexivity.
  - rewrite slice_from_nil, IH. reflexivity.
Qed.

(** X11.  A seed without tokens makes the first iteration fail: the model
    is called on the empty window and, when it answers with one score
    vector per position, there is no last position to select;
    [logits[:, -1, :]] raises and the call ends after that one forward
    pass, whatever [context_length] is. *)
Theorem empty_seed_raises
  {T : Type} `{Score T} `{Softmax T}
  (model : @language_model T) (token_ids : tensor2) (logits : tensor3 T)
  (V : nat) (max_new_tokens context_length : Z) :
  token_ids <> [] -> Forall (fun row => row = []) token_ids ->
  (0 < max_new_tokens)%Z ->
  model token_ids = Ok logits -> shape3 (length token_ids) 0 V logits ->
  generate_text model token_ids max_new_tokens context_length
  = ([token_ids], Raise IndexError).
Proof.
  intros Hrows Hempty HN Hmodel [HB Hshape]. unfold generate_text.
  destruct (Z.to_nat max_new_tokens) as [| n] eqn:Hn; [lia |].
  rewrite for_range_succ.
  unfold step_result, probabilities_of.
  rewrite (truncate_empty_rows context_length Hempty), Hmodel. simpl.
  destruct logits as [| m logits].
  - destruct token_ids; [contradiction | discriminate].
  - inversion Hshape as [| ? ? [Hm _] _]. subst.
    destruct m; [| discriminate]. reflexivity.
Qed.

Lemma empty_seed_raises_witness :
  generate_text (uniform_model [0; 1]%R) [[]] 6 4 = ([[[]]], Raise IndexError).
Proof.
  apply (@empty_seed_raises R _ _ (uniform_model [0; 1]%R) [[]] [[]] 2 6 4).
  - discriminate.
  - repeat constructor.
  - reflexivity.
  - reflexivity.
  - split; [reflexivity | repeat constructor].
Defined.

(** ** The generated tokens *)

Lemma Forall2_compose {A B C} (R1 : A -> B -> Prop) (R2 : B -> C -> Prop)
      (R : A -> C -> Prop) (l1 : list A) (l2 : list B) (l3 : list C) :
  (forall a b c, R1 a b -> R2 b c -> R a c) ->
  Forall2 R1 l1 l2 -> Forall2 R2 l2 l3 -> Forall2 R l1 l3.
Proof.
  intros HR H1. revert l3.
  induction H1 as [| a b l1 l2 Hab _ IH]; intros l3 H2;
    inversion H2; subst; constructor.
  - eapply HR; eassumption.
  - apply IH. assumption.
Qed.

Lemma argmax_bound {T} `{Score T} (p : list T) (i : nat) :
  argmax p = Ok i -> i < length p.
Proof.
  destruct p as [| x p]; simpl; [discriminate |].
  intros Hi. injection Hi as <-.
  pose proof (argmax_scan_bound p x (best_i := 0) (i := 1)). lia.
Qed.

Section Vocabulary.
Context {T : Type} `{Score T} `{Softmax T} `{!SoftmaxShape T}.
Variable model : @language_model T.
Variable c : Z.
Variable V : nat.
Hypothesis model_conforms : conforms V c model.
Hypothesis c_positive : (0 < c)%Z.

Lemma step_in_vocabulary (B n : nat) (t t' : tensor2) :
  shape2 B n t -> 1 <= n ->
  step_result model c t = Ok t' ->
  Forall2 (fun s row =>
             exists tok, row = s ++ [tok] /\
                         (0 <= tok < Z.of_nat V)%Z) t t'.
Proof.
  intros Ht Hn Hstep.
  pose proof (truncate_shape c_positive Ht) as Hwin.
  destruct (model_conforms Hwin) as [logits [Hlogits Hshape]]; [lia | lia |].
  destruct (select_last_total Hshape) as [last [Hlast [HB Hvecs]]]; [lia |].
  unfold step_result, probabilities_of in Hstep.
  rewrite Hlogits in Hstep. simpl in Hstep.
  rewrite Hlast in Hstep. simpl in Hstep.
  destruct (argmax_rows (map softmax last)) as [next | e] eqn:Hnext;
    simpl in Hstep; [| discriminate].
  assert (Hin : Forall (fun tok => (0 <= tok < Z.of_nat V)%Z) next).
  { apply traverse_Forall2 in Hnext. clear Hstep HB Hlast.
    remember (map softmax last) as P eqn:HP. revert last HP Hvecs.
    induction Hnext as [| p tok P next Htok _ IH]; intros last HP Hvecs.
    - constructor.
    - destruct last as [| v last]; [discriminate |].
      injection HP as -> ->.
      inversion Hvecs as [| ? ? Hv Hvecs']. subst.
      constructor; [| apply (IH last); [reflexivity | exact Hvecs']].
      destruct (argmax (softmax v)) as [i | e] eqn:Hi; simpl in Htok;
        [| discriminate].
      injection Htok as <-. apply argmax_bound in Hi.
      rewrite softmax_length in Hi. lia. }
  apply cat_inv in Hstep as [Hlen ->]. clear - Hin Hlen.
  revert next Hin Hlen. induction t as [| s t IH]; intros [| tok next] Hin Hlen;
    simpl in *; try discriminate; constructor.
  - inversion Hin. subst. exists tok. split; [reflexivity | assumption].
  - inversion Hin. subst. apply IH; [assumption | lia].
Qed.

Lemma for_range_in_vocabulary (k B n : nat) (t out : tensor2) :
  shape2 B n t -> 1 <= n ->
  returned (for_range k (step model c) t) = Ok out ->
  Forall2 (fun s row =>
             exists generated,
               row = s ++ generated /\
               Forall (fun tok => (0 <= tok < Z.of_nat V)%Z) generated)
          t out.
Proof.
  revert n t. induction k as [| k IH]; intros n t Ht Hn Hout.
  - simpl in Hout. injection Hout as <-.
    clear. induction t as [| s t IH]; constructor; [| exact IH].
    exists []. split; [symmetry; apply app_nil_r | constructor].
  - rewrite for_range_succ in Hout.
    destruct (step_result model c t) as [t' | e] eqn:Hstep; [| discriminate].
    pose proof (step_in_vocabulary Ht Hn Hstep) as Hfirst.
    assert (Ht' : shape2 B (n + 1) t').
    { apply extends_by_shape with (t := t); [exact Ht |].
      eapply extends_by_step; [| apply extends_by_zero].
      eapply step_extends. exact Hstep. }
    assert (Hn' : 1 <= n + 1) by lia.
    pose proof (IH (n + 1) t' Ht' Hn' Hout) as Hrest.
    eapply Forall2_compose; [| exact Hfirst | exact Hrest].
    intros s row1 row [tok [-> Htok]] [generated [-> Hgen]].
    exists (tok :: generated). split.
    + rewrite <- app_assoc. reflexivity.
    + constructor; assumption.
Qed.
End Vocabulary.

(** X12.  With a model that honours its interface for a vocabulary of [V]
    entries, every generated token is a vocabulary index: between 0 and
    [V - 1]. *)
Theorem generated_tokens_in_vocabulary
  {T : Type} `{Score T} `{Softmax T} `{!SoftmaxShape T}
  (model : @language_model T) (V B n : nat) (token_ids : tensor2)
  (max_new_tokens context_length : Z) :
  1 <= V -> conforms V context_length model ->
  shape2 B n token_ids -> 1 <= n -> (0 < context_length)%Z ->
  exists out,
    returned (generate_text model token_ids max_new_tokens context_length)
    = Ok out /\
    Forall2 (fun seed row =>
               exists generated,
                 row = seed ++ generated /\
                 Forall (fun tok => (0 <= tok < Z.of_nat V)%Z) generated)
            token_ids out.
Proof.
  intros HV Hmodel Ht Hn Hc. unfold generate_text.
  destruct (for_range_total (Z.to_nat max_new_tokens) HV Hmodel Hc Ht Hn)
    as [out Hout].
  exists out. split; [exact Hout |].
  exact (for_range_in_vocabulary Hmodel Hc (Z.to_nat max_new_tokens)
                                 Ht Hn Hout).
Qed.

Lemma generated_tokens_in_vocabulary_witness :
  exists out,
    returned (generate_text (bounded_model 4 [0; 1]%R)
                            [[15496; 11; 995]]%Z 6 4) = Ok out /\
    Forall2 (fun seed row =>
               exists generated,
                 row = seed ++ generated /\
                 Forall (fun tok => (0 <= tok < Z.of_nat 2)%Z) generated)
            [[15496; 11; 995]]%Z out.
Proof.
  apply (@generated_tokens_in_vocabulary R _ _ _
           (bounded_model 4 [0; 1]%R) 2 1 3).
  - apply le_S, le_n.
  - apply (@bounded_model_conforms R 4 [0; 1]%R 4). apply Z.le_refl.
  - split; [reflexivity | repeat constructor].
  - apply le_S, le_S, le_n.
  - reflexivity.
Defined.

(** ** Only the last position is read *)

Section LastPosition.
Context {T : Type} `{Score T} `{Softmax T}.
Variable c : Z.

Lemma step_result_last (model : @language_model T) (t : tensor2) :
  step_result model c t =
  result_bind (result_bind (model (truncate c t)) select_last) (fun last =>
  result_bind (argmax_rows (map softmax last)) (cat t)).
Proof.
  unfold step_result, probabilities_of.
  destruct (model (truncate c t)) as [logits | e]; simpl; [| reflexivity].
  destruct (select_last logits); reflexivity.
Qed.

Lemma for_range_last_scores_only (model1 model2 : @language_model T)
      (n : nat) (t : tensor2) :
  (forall x, In x (forward_inputs (for_range n (step model1 c) t)) ->
             result_bind (model1 x) select_last =
             result_bind (model2 x) select_last) ->
  for_range n (step model1 c) t = for_range n (step model2 c) t.
Proof.
  revert t. induction n as [| n IH]; intros t Hsame.
  - reflexivity.
  - rewrite for_range_succ in Hsame. rewrite !for_range_succ.
    assert (Hstep : step_result model1 c t = step_result model2 c t).
    { rewrite !step_result_last. rewrite Hsame; [reflexivity |].
      destruct (step_result model1 c t); left; reflexivity. }
    rewrite <- Hstep.
    destruct (step_result model1 c t) as [t' | e]; [| reflexivity].
    rewrite IH; [reflexivity |].
    intros x Hx. apply Hsame. right. exact Hx.
Qed.
End LastPosition.

Lemma last_error_constant {A B} (v : B) (row : list A) :
  last_error (map (fun _ => v) row) =
  match row with [] => Raise IndexError | _ :: _ => Ok v end.
Proof.
  unfold last_error. rewrite <- map_rev.
  destruct row as [| a row]; [reflexivity |].
  destruct (rev (a :: row)) as [| b r] eqn:Hrev; [| reflexivity].
  apply (f_equal (@length A)) in Hrev. rewrite length_rev in Hrev.
  discriminate.
Qed.

Lemma last_error_snoc {A} (l : list A) (a : A) : last_error (l ++ [a]) = Ok a.
Proof. unfold last_error. rewrite rev_app_distr. reflexivity. Qed.

Lemma last_position_model_last {T} (v w : list T) (x : tensor2) :
  result_bind (uniform_model v x) select_last =
  result_bind (last_position_model v w x) select_last.
Proof.
  unfold uniform_model, last_position_model, select_last. simpl.
  induction x as [| row x IH]; simpl; [reflexivity |].
  rewrite last_error_constant.
  destruct row as [| a row].
  - reflexivity.
  - rewrite last_error_snoc. simpl. rewrite IH. reflexivity.
Qed.

(** X13.  Of the scores the model returns, only those of the last position
    of each row are read: two models whose scores agree there, on the
    windows fed, give the same forward passes and the same outcome, whatever
    they return for the other positions. *)
Theorem only_last_position_matters
  {T : Type} `{Score T} `{Softmax T}
  (model1 model2 : @language_model T) (token_ids : tensor2)
  (max_new_tokens context_length : Z) :
  (forall x,
      In x (forward_inputs
              (generate_text model1 token_ids max_new_tokens context_length))
      -> result_bind (model1 x) select_last =
         result_bind (model2 x) select_last) ->
  generate_text model1 token_ids max_new_tokens context_length =
  generate_text model2 token_ids max_new_tokens context_length.
Proof.
  unfold generate_text. apply for_range_last_scores_only.
Qed.

Lemma only_last_position_matters_witness :
  generate_text (uniform_model [0; 1]%R) [[5; 6; 7; 8; 9]]%Z 6 2 =
  generate_text (last_position_model [0; 1]%R [1; 0]%R)
                [[5; 6; 7; 8; 9]]%Z 6 2.
Proof.
  apply (@only_last_position_matters R _ _).
  intros x _. apply last_position_model_last.
Defined.

(** * Further properties of the session *)

Section SessionMore.
Context {T : Type} `{Score T} `{Softmax T}.
Variable tokenizer : Tokenizer.
Variable model : @language_model T.
Variable c : Z.

Lemma session_cons_congr (line : string) (rest rest' : list string) :
  session tokenizer model c rest = session tokenizer model c rest' ->
  session tokenizer model c (line :: rest) =
  session tokenizer model c (line :: rest').
Proof.
  intros Hsame. simpl. rewrite Hsame. reflexivity.
Qed.

Lemma not_sentinel (line : string) :
  ~ In line exit_spellings -> lower line <> "exit"%string.
Proof.
  intros Hline E. apply Hline. apply lower_exit. exact E.
Qed.

Lemma session_answered (line : string) (rest : list string) :
  answered tokenizer model c line ->
  session tokenizer model c (line :: rest) =
  (iteration_events tokenizer model c line
     ++ fst (session tokenizer model c rest),
   snd (session tokenizer model c rest)).
Proof.
  intros [Hline Hturn]. rewrite session_turn by (apply not_sentinel; exact Hline).
  unfold iteration_events.
  destruct (turn tokenizer model c line) as [events r]. simpl in Hturn.
  subst r. reflexivity.
Qed.

Lemma session_crashed (line : string) (rest : list string) (e : exn) :
  ~ In line exit_spellings ->
  snd (turn tokenizer model c line) = Raise e ->
  session tokenizer model c (line :: rest) =
  (iteration_events tokenizer model c line, Crashed e).
Proof.
  intros Hline Hturn. rewrite session_turn by (apply not_sentinel; exact Hline).
  unfold iteration_events.
  destruct (turn tokenizer model c line) as [events r]. simpl in Hturn.
  subst r. reflexivity.
Qed.

(** A line is the sentinel, or its turn is answered, or its turn raises. *)
Lemma line_cases (line : string) :
  In line exit_spellings \/
  answered tokenizer model c line \/
  (~ In line exit_spellings /\
   exists e, snd (turn tokenizer model c line) = Raise e).
Proof.
  destruct (String.eqb (lower line) "exit") eqn:E.
  - left. apply lower_exit. apply String.eqb_eq. exact E.
  - right. apply String.eqb_neq in E.
    assert (Hline : ~ In line exit_spellings).
    { intros Hin. apply E. apply lower_exit. exact Hin. }
    destruct (snd (turn tokenizer model c line)) as [[] | e] eqn:Hturn.
    + left. split; assumption.
    + right. split; [exact Hline |]. exists e. reflexivity.
Qed.

Lemma session_app (lines rest : list string) :
  Forall (answered tokenizer model c) lines ->
  session tokenizer model c (lines ++ rest) =
  (flat_map (iteration_events tokenizer model c) lines
     ++ fst (session tokenizer model c rest),
   snd (session tokenizer model c rest)).
Proof.
  induction 1 as [| line lines Hline _ IH].
  - simpl. destruct (session tokenizer model c rest). reflexivity.
  - change ((line :: lines) ++ rest) with (line :: (lines ++ rest)).
    rewrite (session_answered _ Hline), IH. simpl.
    rewrite <- app_assoc. reflexivity.
Qed.
End SessionMore.

(** X16.  Nothing is read after the sentinel or after a turn that raises:
    the lines that follow such a line on standard input have no effect on
    the events and on the outcome of the session. *)
Theorem session_stops_at_exit_or_failure
  {T : Type} `{Score T} `{Softmax T}
  (tokenizer : Tokenizer) (model : @language_model T) (context_length : Z)
  (before : list string) (line : string) (rest rest' : list string) :
  In line exit_spellings \/
  (exists e, snd (turn tokenizer model context_length line) = Raise e) ->
  session tokenizer model context_length (before ++ line :: rest) =
  session tokenizer model context_length (before ++ line :: rest').
Proof.
  intros Hstop. induction before as [| l before IH].
  - simpl app.
    destruct (line_cases tokenizer model context_length line)
      as [Hexit | [[Hline Hok] | [Hline [e He]]]].
    + rewrite !session_exit by (apply lower_exit; exact Hexit). reflexivity.
    + destruct Hstop as [Hexit | [e He]]; [contradiction |].
      rewrite Hok in He. discriminate.
    + rewrite !(session_crashed _ _ _ _ Hline He). reflexivity.
  - change ((l :: before) ++ line :: rest)
      with (l :: (before ++ line :: rest)).
    change ((l :: before) ++ line :: rest')
      with (l :: (before ++ line :: rest')).
    apply session_cons_congr. exact IH.
Qed.

Lemma session_stops_at_exit_or_failure_witness :
  session byte_tokenizer (uniform_model [0; 1]%R) 4
          (["hello"%string] ++ "Exit"%string :: ["never read"%string]) =
  session byte_tokenizer (uniform_model [0; 1]%R) 4
          (["hello"%string] ++ "Exit"%string :: []).
Proof.
  apply (@session_stops_at_exit_or_failure R _ _ byte_tokenizer
           (uniform_model [0; 1]%R) 4 ["hello"%string] "Exit"%string).
  left. simpl. auto 20.
Defined.

(** X17.  How a session ends.  It ends by [break] exactly when some line is
    the sentinel and every line before it is answered; it ends at the end
    of input ([EOFError]) exactly when every line is answered; it ends with
    an exception [e] of a turn exactly when some line that is not the
    sentinel has a turn that raises [e] and every line before it is
    answered. *)
Theorem session_outcome
  {T : Type} `{Score T} `{Softmax T}
  (tokenizer : Tokenizer) (model : @language_model T) (context_length : Z)
  (stdin : list string) :
  (snd (session tokenizer model context_length stdin) = Exited <->
   exists before line rest,
     stdin = before ++ line :: rest /\
     Forall (answered tokenizer model context_length) before /\
     In line exit_spellings) /\
  (snd (session tokenizer model context_length stdin) = EndOfInput <->
   Forall (answered tokenizer model context_length) stdin) /\
  (forall e,
      snd (session tokenizer model context_length stdin) = Crashed e <->
      exists before line rest,
        stdin = before ++ line :: rest /\
        Forall (answered tokenizer model context_length) before /\
        ~ In line exit_spellings /\
        snd (turn tokenizer model context_length line) = Raise e).
Proof.
  induction stdin as [| l stdin [IHexit [IHeof IHcrash]]].
  - simpl. split; [| split].
    + split; [discriminate |].
      intros [[| ? ?] [? [? [E _]]]]; discriminate E.
    + split; [constructor | reflexivity].
    + intros e. split; [discriminate |].
      intros [[| ? ?] [? [? [E _]]]]; discriminate E.
  - destruct (line_cases tokenizer model context_length l)
      as [Hexit | [Hans | [Hline [e0 He0]]]].
    + rewrite session_exit by (apply lower_exit; exact Hexit). simpl.
      split; [| split].
      * split; [| reflexivity]. intros _.
        exists [], l, stdin. repeat split; [constructor | exact Hexit].
      * split; [discriminate |].
        intros Hall. inversion Hall as [| ? ? [Hl _] _]. contradiction.
      * intros e. split; [discriminate |].
        intros [[| l' before] [line [rest [E [Hbefore [Hline _]]]]]].
        -- injection E as -> _. contradiction.
        -- injection E as <- _. inversion Hbefore as [| ? ? [Hl _] _].
           contradiction.
    + rewrite (@session_answered _ _ _ tokenizer model context_length
                 l stdin Hans). simpl.
      split; [| split].
      * rewrite IHexit. split.
        -- intros [before [line [rest [-> [Hbefore Hline]]]]].
           exists (l :: before), line, rest.
           repeat split; [constructor; assumption | exact Hline].
        -- intros [[| l' before] [line [rest [E [Hbefore Hline]]]]].
           ++ injection E as -> _. destruct Hans as [Hl _]. contradiction.
           ++ injection E as <- ->. inversion Hbefore. subst.
              exists before, line, rest. repeat split; assumption.
      * rewrite IHeof. split.
        -- intros Hall. constructor; assumption.
        -- intros Hall. inversion Hall. assumption.
      * intros e. rewrite IHcrash. split.
        -- intros [before [line [rest [-> [Hbefore Hline]]]]].
           exists (l :: before), line, rest.
           repeat split; try apply Hline. constructor; assumption.
        -- intros [[| l' before] [line [rest [E [Hbefore [Hline He]]]]]].
           ++ injection E as -> _. destruct Hans as [_ Hok].
              rewrite Hok in He. discriminate.
           ++ injection E as <- ->. inversion Hbefore. subst.
              exists before, line, rest. repeat split; assumption.
    + rewrite (session_crashed _ _ _ _ Hline He0). simpl.
      split; [| split].
      * split; [discriminate |].
        intros [[| l' before] [line [rest [E [Hbefore Hexit]]]]].
        -- injection E as -> _. contradiction.
        -- injection E as <- _. inversion Hbefore as [| ? ? [_ Hok] _].
           rewrite Hok in He0. discriminate.
      * split; [discriminate |].
        intros Hall. inversion Hall as [| ? ? [_ Hok] _].
        rewrite Hok in He0. discriminate.
      * intros e. split.
        -- intros E. injection E as <-.
           exists [], l, stdin. repeat split; [constructor | | ]; assumption.
        -- intros [[| l' before] [line [rest [E [Hbefore [_ He]]]]]].
           ++ injection E as -> _. rewrite He0 in He.
              injection He as ->. reflexivity.
           ++ injection E as <- _. inversion Hbefore as [| ? ? [_ Hok] _].
              rewrite Hok in He0. discriminate.
Qed.

(** X18.  A conversation composes turn by turn: on lines that are all
    answered, followed by more input, the events are the events of each
    iteration in order, followed by the events of the session on the rest,
    whose outcome is the outcome of the whole.  No state is carried from
    one turn to the next. *)
Theorem session_composes
  {T : Type} `{Score T} `{Softmax T}
  (tokenizer : Tokenizer) (model : @language_model T) (context_length : Z)
  (lines rest : list string) :
  Forall (answered tokenizer model context_length) lines ->
  session tokenizer model context_length (lines ++ rest) =
  (flat_map (iteration_events tokenizer model context_length) lines
     ++ fst (session tokenizer model context_length rest),
   snd (session tokenizer model context_length rest)).
Proof.
  apply session_app.
Qed.

Lemma session_composes_witness :
  session byte_tokenizer (uniform_model [0; 1]%R) 4
          (["hello"%string] ++ ["exit"%string]) =
  (flat_map (iteration_events byte_tokenizer (uniform_model [0; 1]%R) 4)
            ["hello"%string]
     ++ fst (session byte_tokenizer (uniform_model [0; 1]%R) 4
                     ["exit"%string]),
   snd (session byte_tokenizer (uniform_model [0; 1]%R) 4 ["exit"%string])).
Proof.
  apply (@session_composes R _ _ byte_tokenizer (uniform_model [0; 1]%R) 4).
  constructor; [| constructor]. split.
  - simpl. intros Hin.
    repeat (destruct Hin as [E | Hin]; [discriminate E |]).
    exact Hin.
  - destruct (@turn_replies R _ _ byte_tokenizer (uniform_model [0; 1]%R) 4
                _ 2 "hello"%string) as [generated [_ [_ [_ Hturn]]]].
    + apply le_S, le_n.
    + apply (@uniform_model_conforms R [0; 1]%R 4).
    + reflexivity.
    + discriminate.
    + cbv zeta in Hturn. rewrite Hturn. reflexivity.
Defined.


(** * Batches *)

Lemma traverse_app_Ok {A B} (f : A -> result B) (l1 l2 : list A)
      (b1 b2 : list B) :
  traverse f l1 = Ok b1 -> traverse f l2 = Ok b2 ->
  traverse f (l1 ++ l2) = Ok (b1 ++ b2).
Proof.
  revert b1. induction l1 as [| a l1 IH]; simpl; intros b1 H1 H2.
  - injection H1 as <-. exact H2.
  - destruct (f a) as [b | e]; simpl in *; [| discriminate].
    destruct (traverse f l1) as [bs | e]; simpl in *; [| discriminate].
    injection H1 as <-. rewrite (IH bs eq_refl H2). reflexivity.
Qed.

Lemma combine_append {A B} (l1 l2 : list A) (m1 m2 : list B) :
  length l1 = length m1 ->
  combine (l1 ++ l2) (m1 ++ m2) = combine l1 m1 ++ combine l2 m2.
Proof.
  revert m1. induction l1 as [| a l1 IH]; intros [| b m1] Hlen;
    simpl in *; try discriminate.
  - reflexivity.
  - rewrite IH by lia. reflexivity.
Qed.

Lemma cat_app (t1 t2 : tensor2) (next1 next2 : list token)
      (t1' t2' : tensor2) :
  cat t1 next1 = Ok t1' -> cat t2 next2 = Ok t2' ->
  cat (t1 ++ t2) (next1 ++ next2) = Ok (t1' ++ t2').
Proof.
  intros H1 H2. apply cat_inv in H1 as [Hlen1 ->].
  apply cat_inv in H2 as [Hlen2 ->].
  unfold cat. rewrite !length_app, Hlen1, Hlen2, Nat.eqb_refl.
  rewrite combine_append by exact Hlen1. rewrite map_app. reflexivity.
Qed.

Section Batches.
Context {T : Type} `{Score T} `{Softmax T}.
Variable model : @language_model T.
Variable c : Z.
Hypothesis model_rowwise : batch_compatible model.

Lemma step_result_app (t1 t2 t1' t2' : tensor2) :
  step_result model c t1 = Ok t1' -> step_result model c t2 = Ok t2' ->
  step_result model c (t1 ++ t2) = Ok (t1' ++ t2').
Proof.
  unfold step_result, probabilities_of, truncate. intros H1 H2.
  rewrite map_app.
  destruct (model (map (slice_from (- c)) t1)) as [l1 | e] eqn:Hl1;
    simpl in H1; [| discriminate].
  destruct (model (map (slice_from (- c)) t2)) as [l2 | e] eqn:Hl2;
    simpl in H2; [| discriminate].
  rewrite (model_rowwise Hl1 Hl2). simpl.
  unfold select_last in *.
  destruct (traverse (@last_error (list T)) l1) as [last1 | e] eqn:Hlast1;
    simpl in H1; [| discriminate].
  destruct (traverse (@last_error (list T)) l2) as [last2 | e] eqn:Hlast2;
    simpl in H2; [| discriminate].
  rewrite (traverse_app_Ok _ _ _ Hlast1 Hlast2). simpl.
  unfold argmax_rows in *. rewrite map_app.
  match type of H1 with
  | result_bind (traverse ?f _) _ = _ =>
      destruct (traverse f (map softmax last1)) as [next1 | e] eqn:Hnext1;
      simpl in H1; [| discriminate];
      destruct (traverse f (map softmax last2)) as [next2 | e] eqn:Hnext2;
      simpl in H2; [| discriminate];
      rewrite (traverse_app_Ok f _ _ Hnext1 Hnext2)
  end.
  simpl. apply cat_app; assumption.
Qed.

Lemma for_range_app (n : nat) (t1 t2 out1 out2 : tensor2) :
  returned (for_range n (step model c) t1) = Ok out1 ->
  returned (for_range n (step model c) t2) = Ok out2 ->
  returned (for_range n (step model c) (t1 ++ t2)) = Ok (out1 ++ out2).
Proof.
  revert t1 t2. induction n as [| n IH]; intros t1 t2 H1 H2.
  - simpl in *. injection H1 as <-. injection H2 as <-. reflexivity.
  - rewrite for_range_succ in *.
    destruct (step_result model c t1) as [t1' | e] eqn:Hs1; [| discriminate].
    destruct (step_result model c t2) as [t2' | e] eqn:Hs2; [| discriminate].
    rewrite (step_result_app _ _ Hs1 Hs2). simpl in *.
    apply IH; assumption.
Qed.
End Batches.

(** X20.  With a model that scores the rows of a batch independently,
    decoding a batch is decoding its parts: when the calls on two batches
    return, the call on the two batches put together returns their results
    put together. *)
Theorem batches_decode_row_by_row
  {T : Type} `{Score T} `{Softmax T}
  (model : @language_model T) (batch1 batch2 out1 out2 : tensor2)
  (max_new_tokens context_length : Z) :
  batch_compatible model ->
  returned (generate_text model batch1 max_new_tokens context_length)
  = Ok out1 ->
  returned (generate_text model batch2 max_new_tokens context_length)
  = Ok out2 ->
  returned (generate_text model (batch1 ++ batch2)
                          max_new_tokens context_length)
  = Ok (out1 ++ out2).
Proof.
  intros Hmodel. unfold generate_text. apply for_range_app. exact Hmodel.
Qed.

Lemma successor_model_batch_compatible (V : nat) :
  batch_compatible (successor_model V).
Proof.
  intros x1 x2 l1 l2 H1 H2. unfold successor_model in *.
  injection H1 as <-. injection H2 as <-. rewrite map_app. reflexivity.
Qed.

Lemma batches_decode_row_by_row_witness :
  returned (@generate_text Z int_score (raw_scores Z) (successor_model 10)
                           ([[1; 2]] ++ [[7; 8]])%Z 2 4)
  = Ok ([[1; 2; 3; 4]] ++ [[7; 8; 9; 0]])%Z.
Proof.
  apply (@batches_decode_row_by_row Z int_score (raw_scores Z)
           (successor_model 10) [[1; 2]]%Z [[7; 8]]%Z).
  - apply successor_model_batch_compatible.
  - reflexivity.
  - reflexivity.
Defined.

(** * The configuration *)

(** X21.  When the configuration holds an integer (or a boolean) under
    [context_length], the loop that looks it up at every turn is the
    session with that context length: same events, same outcome. *)
Theorem configured_session_is_session
  {T : Type} `{Score T} `{Softmax T}
  (tokenizer : Tokenizer) (model : @language_model T) (cfg : config)
  (v : json) (context_length : Z) (stdin : list string) :
  lookup "context_length" cfg = Some v ->
  as_index v = Some context_length ->
  configured_session tokenizer model cfg stdin =
  (fst (session tokenizer model context_length stdin),
   Ended (snd (session tokenizer model context_length stdin))).
Proof.
  intros Hkey Hint. induction stdin as [| line stdin IH].
  - reflexivity.
  - simpl. rewrite Hkey, Hint.
    destruct (String.eqb (lower line) "exit"); [reflexivity |].
    destruct (turn tokenizer model context_length line) as [events [u | e]];
      [| reflexivity].
    rewrite IH.
    destruct (session tokenizer model context_length stdin). reflexivity.
Qed.

Lemma configured_session_is_session_witness :
  configured_session byte_tokenizer (uniform_model [0; 1]%R)
    [("vocab_size", JInt 50257); ("context_length", JInt 1024)]%string
    ["hello"; "exit"]%string =
  (fst (session byte_tokenizer (uniform_model [0; 1]%R) 1024
                ["hello"; "exit"]%string),
   Ended (snd (session byte_tokenizer (uniform_model [0; 1]%R) 1024
                       ["hello"; "exit"]%string))).
Proof.
  apply (@configured_session_is_session R _ _ byte_tokenizer
           (uniform_model [0; 1]%R)
           [("vocab_size", JInt 50257); ("context_length", JInt 1024)]%string
           (JInt 1024) 1024 ["hello"; "exit"]%string);
    reflexivity.
Defined.
